(** * okteto: build-trace aggregation and pipeline destroy supervision

    A shallow embedding of

    - [pkg/cmd/build/logger.go]: the [trace] that aggregates buildkit
      [SolveStatus] batches ([update]), renders them ([display]), prunes
      finished steps ([removeCompletedSteps]) and the consumer loop
      [deployDisplayer];
    - the pipeline destroy command: [ExecuteDestroyPipeline],
      [destroyPipeline] and the goroutines of [waitUntilDestroyed].

    Go maps are [gmap]s; a pointer stored in a map is modelled by writing the
    modified record back under its key.  Calls on the [oktetoLog] sink are
    collected, in program order, in a list of [logCall]s. *)

From Stdlib Require Import ZArith String Ascii List Bool Lia.
From stdpp Require Import gmap strings list fin_maps.

Local Open Scope string_scope.
Local Open Scope list_scope.
Local Open Scope Z_scope.

(** ** Go [error] values *)

(** The error values the two packages build or pass on.  [errorString] is an
    error made by [fmt.Errorf] from plain strings, identified by its text;
    [wrapError] is [fmt.Errorf] with a [%w] verb; [CommandErr] is
    [buildkit.CommandErr]; [ErrIntSig] is [oktetoErrors.ErrIntSig]. *)
Inductive error : Type :=
| errorString (msg : string)
| wrapError (format : string) (args : list string) (inner : error)
| CommandErr (Stage : string) (Err : error) (Output : string)
| ErrIntSig.

(** Calls on the output sink [oktetoLog].  A call that takes a format keeps
    the format and its string arguments apart.  [SpinnerSynchronizing n] is
    [Spinner(fmt.Sprintf("Synchronizing context: %.2f", units.Bytes(n)))],
    whose rendering of the byte count is left to the [units] package;
    [Info e] is [Info(e.Error())].  Every call only emits; [Fail] too. *)
Inductive logCall : Type :=
| Spinner (msg : string)
| SpinnerSynchronizing (currentLoadedCtx : Z)
| StartSpinner
| StopSpinner
| Info (e : error)
| Infof (format : string) (args : list string)
| InfofErr (format : string) (e : error)
| Debugf (format : string) (args : list string)
| Information (format : string) (args : list string)
| Println (msg : string)
| SetStage (stage : string)
| Fail (format : string) (args : list string)
| Success (format : string) (args : list string)
| Warning (format : string) (e : error).

(** ** Package [strings] and [regexp] as used by the sources *)

Definition isSpace (c : ascii) : bool :=
  let n := nat_of_ascii c in
  (n =? 9)%nat || (n =? 10)%nat || (n =? 12)%nat || (n =? 13)%nat || (n =? 32)%nat.

Definition quote : ascii := ascii_of_nat 34.
Definition newline : ascii := ascii_of_nat 10.

Fixpoint hasPrefixL (p s : list ascii) : bool :=
  match p, s with
  | [], _ => true
  | _ :: _, [] => false
  | a :: p', b :: s' => Ascii.eqb a b && hasPrefixL p' s'
  end.

Fixpoint containsL (s sub : list ascii) : bool :=
  hasPrefixL sub s ||
  match s with
  | [] => false
  | _ :: s' => containsL s' sub
  end.

(** [strings.HasPrefix] and [strings.Contains]. *)
Definition HasPrefix (s prefix : string) : bool :=
  hasPrefixL (list_ascii_of_string prefix) (list_ascii_of_string s).

Definition Contains (s substr : string) : bool :=
  containsL (list_ascii_of_string s) (list_ascii_of_string substr).

(** [strings.Split(s, "\n")]: the pieces between newlines; the empty string
    gives one empty piece. *)
Fixpoint splitLines (s : string) : list string :=
  match s with
  | EmptyString => [EmptyString]
  | String c s' =>
      if Ascii.eqb c newline then EmptyString :: splitLines s'
      else match splitLines s' with
           | [] => [String c EmptyString]
           | l :: ls => String c l :: ls
           end
  end.

Module build.

(** ** buildkit's [client] records, restricted to the fields read here *)

Record Digest := { Algorithm : string; Encoded : string }.

Record Vertex := {
  Vertex_Digest : Digest;
  Vertex_Name : string;
  Vertex_Completed : option Z;
  Vertex_Cached : bool;
  Vertex_Error : string
}.

Record VertexStatus := {
  VertexStatus_Vertex : Digest;
  VertexStatus_Total : Z;
  VertexStatus_Current : Z;
  VertexStatus_Completed : option Z
}.

Record VertexLog := {
  VertexLog_Vertex : Digest;
  VertexLog_Data : string
}.

Record SolveStatus := {
  Vertexes : list Vertex;
  Statuses : list VertexStatus;
  Logs : list VertexLog
}.

(** ** [vertexInfo] and [trace] *)

Record vertexInfo := {
  name : string;
  logs : list string;
  currentTransferedContext : Z;
  totalTransferedContext : Z;
  completed : bool;
  cached : bool
}.

Record trace := {
  err : option error;
  ongoing : gmap string vertexInfo;
  stages : gmap string bool;
  showCtxAdvice : bool
}.

Definition newTrace : trace :=
  {| err := None; ongoing := ∅; stages := ∅; showCtxAdvice := true |}.

Definition with_ongoing (o : gmap string vertexInfo) (t : trace) : trace :=
  {| err := err t; ongoing := o; stages := stages t;
     showCtxAdvice := showCtxAdvice t |}.

Definition set_cached (v : vertexInfo) : vertexInfo :=
  {| name := name v; logs := logs v;
     currentTransferedContext := currentTransferedContext v;
     totalTransferedContext := totalTransferedContext v;
     completed := completed v; cached := true |}.

Definition set_completed (b : bool) (v : vertexInfo) : vertexInfo :=
  {| name := name v; logs := logs v;
     currentTransferedContext := currentTransferedContext v;
     totalTransferedContext := totalTransferedContext v;
     completed := b; cached := cached v |}.

Definition set_logs (ls : list string) (v : vertexInfo) : vertexInfo :=
  {| name := name v; logs := ls;
     currentTransferedContext := currentTransferedContext v;
     totalTransferedContext := totalTransferedContext v;
     completed := completed v; cached := cached v |}.

Definition isSome {A} (o : option A) : bool :=
  match o with Some _ => true | None => false end.

(** ** [trace.update] *)

(** The [vertexInfo] registered on first sight of a vertex. *)
Definition freshVertex (rawVertex : Vertex) : vertexInfo :=
  {| name := Vertex_Name rawVertex; logs := [];
     currentTransferedContext := 0; totalTransferedContext := 0;
     completed := false; cached := Vertex_Cached rawVertex |}.

(** Get-or-create at the head of the vertex loop. *)
Definition register (o : gmap string vertexInfo) (rawVertex : Vertex)
  : gmap string vertexInfo :=
  match o !! Encoded (Vertex_Digest rawVertex) with
  | Some _ => o
  | None => <[Encoded (Vertex_Digest rawVertex) := freshVertex rawVertex]> o
  end.

Definition vertexError (rawVertex : Vertex) : error :=
  errorString ("error on stage " +:+ Vertex_Name rawVertex +:+ ": "
               +:+ Vertex_Error rawVertex).

(** The part of the vertex loop body after the error check. *)
Definition latch (rawVertex : Vertex) (v : vertexInfo) : vertexInfo :=
  let v1 := if Vertex_Cached rawVertex then set_cached v else v in
  if isSome (Vertex_Completed rawVertex) then set_completed true v1 else v1.

(** One iteration of [for _, rawVertex := range ss.Vertexes]. *)
Definition updateVertex (o : gmap string vertexInfo) (rawVertex : Vertex)
  : gmap string vertexInfo * option error :=
  let o1 := register o rawVertex in
  if negb (String.eqb (Vertex_Error rawVertex) "") then
    (o1, Some (vertexError rawVertex))
  else
    (alter (latch rawVertex) (Encoded (Vertex_Digest rawVertex)) o1, None).

Fixpoint updateVertexes (vs : list Vertex) (o : gmap string vertexInfo)
  : gmap string vertexInfo * option error :=
  match vs with
  | [] => (o, None)
  | rawVertex :: rest =>
      match updateVertex o rawVertex with
      | (o1, Some e) => (o1, Some e)
      | (o1, None) => updateVertexes rest o1
      end
  end.

Definition applyStatus (s : VertexStatus) (v : vertexInfo) : vertexInfo :=
  {| name := name v; logs := logs v;
     currentTransferedContext := VertexStatus_Current s;
     totalTransferedContext := VertexStatus_Total s;
     completed := isSome (VertexStatus_Completed s);
     cached := cached v |}.

(** One iteration of [for _, s := range ss.Statuses]; [alter] leaves the map
    alone when the key is absent (the [continue]). *)
Definition updateStatus (o : gmap string vertexInfo) (s : VertexStatus)
  : gmap string vertexInfo :=
  alter (applyStatus s) (Encoded (VertexStatus_Vertex s)) o.

Definition appendLogs (l : VertexLog) (v : vertexInfo) : vertexInfo :=
  set_logs (logs v ++ splitLines (VertexLog_Data l)) v.

Definition updateLog (o : gmap string vertexInfo) (l : VertexLog)
  : gmap string vertexInfo :=
  alter (appendLogs l) (Encoded (VertexLog_Vertex l)) o.

(** [update] returns the mutated trace together with the returned error. *)
Definition update (t : trace) (ss : SolveStatus) : trace * option error :=
  match updateVertexes (Vertexes ss) (ongoing t) with
  | (o1, Some e) => (with_ongoing o1 t, Some e)
  | (o1, None) =>
      let o2 := fold_left updateStatus (Statuses ss) o1 in
      let o3 := fold_left updateLog (Logs ss) o2 in
      (with_ongoing o3 t, None)
  end.

(** ** Constants and helpers of the package *)

Definition largeContextThreshold : Z := 50000000.

(** Modelled from the spec: the three output-mode constants, declared in a
    file of package [build] that is not part of the sources at hand. *)
Definition DeployOutputModeOnBuild : string := "build".
Definition DestroyOutputModeOnBuild : string := "destroy".
Definition TestOutputModeOnBuild : string := "test".

(** Modelled from the spec: [oktetoLog.JSONLogFormat], the record one log
    line decodes to. *)
Record JSONLogFormat := {
  Level : string;
  Stage : string;
  Message : string
}.

Definition hasCommandLogs (v : vertexInfo) : bool :=
  negb (length (logs v) =? 0)%nat.

Definition isTransferringContext (name : string) : bool :=
  let isInternal := HasPrefix name "[internal]" in
  let isLoadingCtx := Contains name "load build" in
  isInternal && isLoadingCtx.

(** [nameRegex] matched at the head of [s]: the literal [--name], the
    longest run of white space (at least one), a double quote, the longest
    run of characters other than a double quote (at least one, the group),
    a double quote.  Both runs
    are followed by a character outside their class, so the greedy choice is
    the only one that can succeed. *)
Definition nameLiteral : list ascii := list_ascii_of_string "--name".

Fixpoint spanValue (s : list ascii) : list ascii * list ascii :=
  match s with
  | [] => ([], [])
  | c :: s' =>
      if Ascii.eqb c quote then ([], s)
      else let '(val, rest) := spanValue s' in (c :: val, rest)
  end.

Fixpoint dropSpaces (s : list ascii) : list ascii :=
  match s with
  | [] => []
  | c :: s' => if isSpace c then dropSpaces s' else s
  end.

Definition matchHere (s : list ascii) : option (list ascii) :=
  if hasPrefixL nameLiteral s then
    match drop 6 s with
    | c :: r =>
        if isSpace c then
          match dropSpaces r with
          | q :: r' =>
              if Ascii.eqb q quote then
                match spanValue r' with
                | ((_ :: _) as val, _ :: _) => Some val
                | _ => None
                end
              else None
          | [] => None
          end
        else None
    | [] => None
    end
  else None.

Fixpoint findSubmatch (s : list ascii) : option (list ascii) :=
  match matchHere s with
  | Some val => Some val
  | None =>
      match s with
      | [] => None
      | _ :: s' => findSubmatch s'
      end
  end.

(** [nameRegex.FindStringSubmatch(s)], reduced to what the caller reads:
    [Some] of the first group when there is a match ([len(match) > 1]). *)
Definition nameRegex_FindStringSubmatch (s : string) : option string :=
  string_of_list_ascii <$> findSubmatch (list_ascii_of_string s).

(** ** Threading the trace through a [for ... range] loop *)

Fixpoint forEach {A} (f : trace -> A -> trace * list logCall)
    (xs : list A) (t : trace) : trace * list logCall :=
  match xs with
  | [] => (t, [])
  | x :: xs' =>
      let '(t1, o1) := f t x in
      let '(t2, o2) := forEach f xs' t1 in
      (t2, o1 ++ o2)
  end.

Definition with_err (e : option error) (t : trace) : trace :=
  {| err := e; ongoing := ongoing t; stages := stages t;
     showCtxAdvice := showCtxAdvice t |}.

Definition with_stages (s : gmap string bool) (t : trace) : trace :=
  {| err := err t; ongoing := ongoing t; stages := s;
     showCtxAdvice := showCtxAdvice t |}.

Definition with_showCtxAdvice (b : bool) (t : trace) : trace :=
  {| err := err t; ongoing := ongoing t; stages := stages t;
     showCtxAdvice := b |}.

(** ** [trace.display] *)

Definition ctxAdvice : string :=
  "You can use '.oktetoignore' file to optimize the context used to deploy your development environment.".

Section Display.

(** [json.Unmarshal] into a [JSONLogFormat]; [None] is a decoding error. *)
Context (unmarshal : string -> option JSONLogFormat).

(** The first [if] of the loop body: the context-transfer progress. *)
Definition displayContext (t : trace) (v : vertexInfo) : trace * list logCall :=
  if isTransferringContext (name v) then
    if negb (currentTransferedContext v =? 0) then
      let currentLoadedCtx := currentTransferedContext v in
      if showCtxAdvice t && (largeContextThreshold <? currentLoadedCtx) then
        (with_showCtxAdvice false t,
         [Information ctxAdvice []; SpinnerSynchronizing currentLoadedCtx])
      else (t, [SpinnerSynchronizing currentLoadedCtx])
    else (t, [])
  else (t, []).

Definition progressSpinner (progress : string) : list logCall :=
  if String.eqb progress DeployOutputModeOnBuild then
    [Spinner "Deploying your development environment..."]
  else if String.eqb progress DestroyOutputModeOnBuild then
    [Spinner "Destroying your development environment..."]
  else if String.eqb progress TestOutputModeOnBuild then
    [Spinner "Running tests..."]
  else [].

(** The [default] case of the switch on the stage: announce, then record the
    failure or print the message. *)
Definition displayStage (progress : string) (t : trace) (text : JSONLogFormat)
  : trace * list logCall :=
  let '(t1, o1) :=
    match stages t !! Stage text with
    | Some _ => (t, [])
    | None =>
        (with_stages (<[Stage text := true]> (stages t)) t,
         if negb (String.eqb progress TestOutputModeOnBuild)
         then [Information "Running stage '%s'" [Stage text]] else [])
    end in
  if String.eqb (Level text) "error" then
    if negb (String.eqb (Stage text) "") then
      (with_err (Some (CommandErr (Stage text) (errorString (Message text))
                         progress)) t1, o1)
    else (t1, o1)
  else (t1, o1 ++ [Println (Message text)]).

(** One iteration of [for _, log := range v.logs]. *)
Definition displayLog (progress : string) (t : trace) (log : string)
  : trace * list logCall :=
  if String.eqb log "" then (t, [])
  else
    match unmarshal log with
    | None =>
        (* the second argument, the decoder's error, is not modelled *)
        (t, [Debugf "could not parse %s: %s" [log]])
    | Some text =>
        if String.eqb (Stage text) "" then
          (t, [Infof "received log without stage: %s" [Message text]])
        else if String.eqb (Stage text) "done" then
          (t, [SetStage (Stage text)])
        else if String.eqb (Stage text) "Load manifest" then
          (t, SetStage (Stage text) ::
              (if String.eqb (Level text) "error"
               then [Fail "%s" [Message text]] else []))
        else
          let '(t1, o1) := displayStage progress t text in
          (t1, SetStage (Stage text) :: o1)
    end.

(** The body of [for _, v := range t.ongoing], for the step under key [k]. *)
Definition displayVertex (progress : string) (t : trace) (k : string)
  : trace * list logCall :=
  match ongoing t !! k with
  | None => (t, [])
  | Some v =>
      let '(t1, o1) := displayContext t v in
      if hasCommandLogs v then
        let '(t2, o2) := forEach (displayLog progress) (logs v) t1 in
        (with_ongoing (<[k := set_logs [] v]> (ongoing t2)) t2,
         o1 ++ progressSpinner progress ++ o2 ++ [SetStage ""])
      else (t1, o1)
  end.

(** [display], with the order in which [range] visits the keys made
    explicit: Go leaves it unspecified. *)
Definition display (range : list string) (progress : string) (t : trace)
  : trace * list logCall :=
  forEach (displayVertex progress) range t.

End Display.

(** [range] visits every key of the map once, in some order. *)
Definition rangeOrder {V} (m : gmap string V) (range : list string) : Prop :=
  NoDup range /\ forall k, k ∈ range <-> is_Some (m !! k).

(** ** [trace.removeCompletedSteps] *)

Definition skipNotice (v : vertexInfo) : list logCall :=
  if Contains (name v) "remote-run test" && cached v then
    match nameRegex_FindStringSubmatch (name v) with
    | Some name => [Information "Skipping test container '%s', CACHED" [name]]
    | None => [Information "Skipping test container, CACHED" []]
    end
  else [].

Definition removeCompletedStep (t : trace) (k : string) : trace * list logCall :=
  match ongoing t !! k with
  | Some v =>
      if completed v then
        (with_ongoing (delete k (ongoing t)) t, skipNotice v)
      else (t, [])
  | None => (t, [])
  end.

Definition removeCompletedSteps (range : list string) (t : trace)
  : trace * list logCall :=
  forEach removeCompletedStep range t.

(** ** Sequences of calls on one trace, and [deployDisplayer] *)

Inductive call : Type :=
| callUpdate (ss : SolveStatus)
| callDisplay (range : list string) (progress : string)
| callRemoveCompletedSteps (range : list string).

Record BuildOptions := { OutputMode : string }.

(** The [switch o.OutputMode] at the head of [deployDisplayer]. *)
Definition selectOutputMode (o : BuildOptions) : string :=
  if String.eqb (OutputMode o) DeployOutputModeOnBuild then DeployOutputModeOnBuild
  else if String.eqb (OutputMode o) DestroyOutputModeOnBuild then DestroyOutputModeOnBuild
  else if String.eqb (OutputMode o) TestOutputModeOnBuild then TestOutputModeOnBuild
  else DeployOutputModeOnBuild.

(** What one [select] of the consumer loop picks: the context is done, the
    ticker fired, a batch arrived (with the orders the two [range] loops of
    that cycle take), or the channel is closed. *)
Inductive selected : Type :=
| ctxDone (e : error)
| timeoutTick
| received (ss : SolveStatus) (rangeDisplay rangeRemove : list string)
| chClosed.

Section Driver.

Context (unmarshal : string -> option JSONLogFormat).

Definition runCall (t : trace) (c : call) : trace * list logCall :=
  match c with
  | callUpdate ss => (fst (update t ss), [])
  | callDisplay range progress => display unmarshal range progress t
  | callRemoveCompletedSteps range => removeCompletedSteps range t
  end.

Definition runCalls (cs : list call) (t : trace) : trace * list logCall :=
  forEach runCall cs t.

(** The [for { select { ... } }] loop.  The result is [None] when the given
    selections end with the loop still waiting. *)
Fixpoint consume (outputMode : string) (evs : list selected) (t : trace)
  : trace * option (option error) * list logCall :=
  match evs with
  | [] => (t, None, [])
  | ctxDone e :: _ => (t, Some (Some e), [StopSpinner])
  | timeoutTick :: rest => consume outputMode rest t
  | received ss rangeDisplay rangeRemove :: rest =>
      match update t ss with
      | (t1, Some e) =>
          let '(t', r, o) := consume outputMode rest t1 in
          (t', r, Info e :: o)
      | (t1, None) =>
          let '(t2, o2) := display unmarshal rangeDisplay outputMode t1 in
          let '(t3, o3) := removeCompletedSteps rangeRemove t2 in
          let '(t', r, o) := consume outputMode rest t3 in
          (t', r, o2 ++ o3 ++ o)
      end
  | chClosed :: _ => (t, Some (err t), [StopSpinner])
  end.

Definition deployDisplayer (evs : list selected) (o : BuildOptions)
  : option (option error) * list logCall :=
  let '(_, r, out) := consume (selectOutputMode o) evs newTrace in
  (r, [Spinner "Synchronizing context..."; StartSpinner] ++ out
      ++ match r with Some _ => [StopSpinner] | None => [] end).

End Driver.

(** ** A decoder for the log lines used in the examples *)

Definition backslash : ascii := ascii_of_nat 92.

Definition isJSONSpace (c : ascii) : bool :=
  let n := nat_of_ascii c in
  (n =? 9)%nat || (n =? 10)%nat || (n =? 13)%nat || (n =? 32)%nat.

Fixpoint skipJSONSpace (s : list ascii) : list ascii :=
  match s with
  | [] => []
  | c :: s' => if isJSONSpace c then skipJSONSpace s' else s
  end.

(** The characters of a string literal after its opening quote, up to the
    closing one.  Escapes and control characters are outside the fragment. *)
Fixpoint stringBody (s : list ascii) : option (list ascii * list ascii) :=
  match s with
  | [] => None
  | c :: s' =>
      if Ascii.eqb c quote then Some ([], s')
      else if Ascii.eqb c backslash || (nat_of_ascii c <? 32)%nat then None
      else match stringBody s' with
           | Some (val, rest) => Some (c :: val, rest)
           | None => None
           end
  end.

Definition setField (key val : string) (text : JSONLogFormat) : JSONLogFormat :=
  if String.eqb key "level" then
    {| Level := val; Stage := Stage text; Message := Message text |}
  else if String.eqb key "stage" then
    {| Level := Level text; Stage := val; Message := Message text |}
  else if String.eqb key "message" then
    {| Level := Level text; Stage := Stage text; Message := val |}
  else text.

Definition expect (c : ascii) (s : list ascii) : option (list ascii) :=
  match skipJSONSpace s with
  | c' :: s' => if Ascii.eqb c c' then Some s' else None
  | [] => None
  end.

Fixpoint members (fuel : nat) (s : list ascii) (text : JSONLogFormat)
  : option JSONLogFormat :=
  match fuel with
  | O => None
  | S fuel' =>
      s1 ← expect quote s;
      '(key, s2) ← stringBody s1;
      s3 ← expect ":"%char s2;
      s4 ← expect quote s3;
      '(val, s5) ← stringBody s4;
      let text' := setField (string_of_list_ascii key)
                     (string_of_list_ascii val) text in
      match skipJSONSpace s5 with
      | c :: s6 =>
          if Ascii.eqb c ","%char then members fuel' s6 text'
          else if Ascii.eqb c "}"%char then
            match skipJSONSpace s6 with [] => Some text' | _ => None end
          else None
      | [] => None
      end
  end.

(** Modelled from the spec: the structured log line decoder, on the fragment
    of JSON made of one object whose members are all string literals without
    escapes (the shape of the lines in the examples below).  Keys other than
    [level], [stage] and [message] are ignored; a repeated key keeps the last
    value; anything outside the fragment is a decoding error. *)
Definition unmarshalFlat (line : string) : option JSONLogFormat :=
  let zero := {| Level := ""; Stage := ""; Message := "" |} in
  s1 ← expect "{"%char (list_ascii_of_string line);
  match skipJSONSpace s1 with
  | c :: s2 =>
      if Ascii.eqb c "}"%char then
        match skipJSONSpace s2 with [] => Some zero | _ => None end
      else members (String.length line) s1 zero
  | [] => None
  end.

End build.

Module pipeline.

(** ** The destroy command *)

Record DestroyOptions := {
  Name : string;
  Namespace : string;
  Wait : bool;
  DestroyVolumes : bool;
  Timeout : Z
}.

Record Action := { Action_Name : string }.

Record GitDeployResponse := { GitDeployResponse_Action : Action }.

(** What the [select] of [destroyPipeline] observes: the interrupt first
    (with whatever [resp] holds at that moment), or the result of the remote
    [Destroy] call. *)
Inductive raced : Type :=
| interruptFirst (resp : option GitDeployResponse)
| callFirst (resp : option GitDeployResponse) (err : option error).

(** The collaborators of the command: the working directory, the git
    repository, the remote client and the outcome of the wait phase. *)
Record world := {
  Getwd : error + string;
  GetRepositoryURL : string -> error + string;
  getPipelineName : string -> string;
  Destroy : string -> bool -> raced;
  waitOutcome : string -> Action -> Z -> option error * list logCall
}.

Definition destroyPipeline (w : world) (name : string) (destroyVolumes : bool)
  : option GitDeployResponse * option error * list logCall :=
  let start := [Spinner ("Destroying repository '" +:+ name +:+ "'..."); StartSpinner] in
  match Destroy w name destroyVolumes with
  | interruptFirst resp =>
      (resp, None,
       start ++ [Infof "CTRL+C received, starting shutdown sequence" [];
                 StopSpinner; StopSpinner])
  | callFirst resp None => (resp, None, start ++ [StopSpinner])
  | callFirst _ (Some e) =>
      let err := wrapError "failed to destroy repository '%s': %w" [name] e in
      (None, Some err,
       start ++ [InfofErr "exit signal received due to error: %s" err; StopSpinner])
  end.

Definition waitingSpinner (name : string) : logCall :=
  Spinner ("Waiting for the repository '" +:+ name +:+ "' to be destroyed...").

(** [waitUntilDestroyed] as its caller sees it: the spinner it starts, then
    the outcome of its [select] and what was logged on the way. *)
Definition waitUntilDestroyed (w : world) (name : string) (action : Action)
    (timeout : Z) : option error * list logCall :=
  let '(r, out) := waitOutcome w name action timeout in
  (r, [waitingSpinner name; StartSpinner] ++ out ++ [StopSpinner]).

(** The head of [ExecuteDestroyPipeline]: the name given, or the one derived
    from the repository of the working directory. *)
Definition resolveName (w : world) (opts : DestroyOptions) : error + string :=
  if String.eqb (Name opts) "" then
    match Getwd w with
    | inl e =>
        inl (wrapError "failed to get the current working directory: %w" [] e)
    | inr cwd =>
        match GetRepositoryURL w cwd with
        | inl e => inl e
        | inr repo => inr (getPipelineName w repo)
        end
    end
  else inr (Name opts).

Section Execute.

(** [oktetoErrors.IsNotFound]. *)
Context (IsNotFound : error -> bool).

Definition ExecuteDestroyPipeline (w : world) (opts : DestroyOptions)
  : option error * list logCall :=
  match resolveName w opts with
  | inl e => (Some e, [])
  | inr name =>
      let '(resp, err, out) := destroyPipeline w name (DestroyVolumes opts) in
      match err with
      | Some e =>
          if negb (IsNotFound e) then (Some e, out) else
          if negb (Wait opts) then
            (None, out ++ [Success "Repository '%s' scheduled for destruction" [name]])
          else
            (None, out ++ [Success "Repository '%s' successfully destroyed" [name]])
      | None =>
          if negb (Wait opts) then
            (None, out ++ [Success "Repository '%s' scheduled for destruction" [name]])
          else
            match resp with
            | Some r =>
                let '(werr, wout) :=
                  waitUntilDestroyed w name (GitDeployResponse_Action r) (Timeout opts) in
                match werr with
                | Some e => (Some e, out ++ wout)
                | None =>
                    (None, out ++ wout
                       ++ [Success "Repository '%s' successfully destroyed" [name]])
                end
            | None =>
                (None, out ++ [Success "Repository '%s' successfully destroyed" [name]])
            end
      end
  end.

End Execute.

(** The wait phase was entered: its spinner text was set. *)
Definition enteredWait (name : string) (out : list logCall) : bool :=
  existsb (fun c => match c with
                    | Spinner msg =>
                        String.eqb msg ("Waiting for the repository '" +:+ name
                                        +:+ "' to be destroyed...")
                    | _ => false
                    end) out.

(** ** The goroutines of [waitUntilDestroyed] *)

Inductive main_pc : Type :=
| mainAddStream       (* about to run the first wg.Add(1) *)
| mainGoStream
| mainAddWaiter       (* about to run the second wg.Add(1) *)
| mainGoWaiter
| mainGoCloser
| mainSelect
| mainReturned (r : option error).

Inductive stream_pc : Type :=
| streamNotStarted
| streamRunning       (* inside streamPipelineLogs *)
| streamReturned      (* the deferred wg.Done() is still to run *)
| streamExited.

Inductive waiter_pc : Type :=
| waiterNotStarted
| waiterRunning            (* inside waitToBeDestroyed *)
| waiterReturned (r : option error)   (* about to send on exit *)
| waiterExited.

Inductive closer_pc : Type :=
| closerNotStarted
| closerWaiting       (* inside wg.Wait() *)
| closerCloseStop
| closerCloseExit
| closerExited.

Record state := {
  wg : Z;
  main : main_pc;
  stream : stream_pc;
  waiter : waiter_pc;
  closer : closer_pc;
  stop_pending : bool;
  stop_closes : nat;
  exit_buffer : option (option error);
  exit_closes : nat;
  cancelled : bool;
  out : list logCall
}.

Definition init : state :=
  {| wg := 0; main := mainAddStream; stream := streamNotStarted;
     waiter := waiterNotStarted; closer := closerNotStarted;
     stop_pending := false; stop_closes := 0; exit_buffer := None;
     exit_closes := 0; cancelled := false; out := [] |}.

(** What the scheduler, the operating system and the remote calls decide. *)
Inductive action : Type :=
| actMain
| actSelectStop
| actSelectExit
| actInterrupt
| actStreamReturn (e : option error)
| actStreamDone
| actWaiterReturn (e : option error)
| actWaiterSend
| actCloser.

Definition upd (s : state) (wg' : Z) (m : main_pc) (st : stream_pc)
    (wa : waiter_pc) (cl : closer_pc) : state :=
  {| wg := wg'; main := m; stream := st; waiter := wa; closer := cl;
     stop_pending := stop_pending s; stop_closes := stop_closes s;
     exit_buffer := exit_buffer s; exit_closes := exit_closes s;
     cancelled := cancelled s; out := out s |}.

(** One step of the program; [None] when the action cannot run in [s]
    (the goroutine is elsewhere, or it is blocked). *)
Definition step (a : action) (s : state) : option state :=
  match a with
  | actMain =>
      match main s with
      | mainAddStream =>
          Some (upd s (wg s + 1) mainGoStream (stream s) (waiter s) (closer s))
      | mainGoStream =>
          Some (upd s (wg s) mainAddWaiter streamRunning (waiter s) (closer s))
      | mainAddWaiter =>
          Some (upd s (wg s + 1) mainGoWaiter (stream s) (waiter s) (closer s))
      | mainGoWaiter =>
          Some (upd s (wg s) mainGoCloser (stream s) waiterRunning (closer s))
      | mainGoCloser =>
          Some (upd s (wg s) mainSelect (stream s) (waiter s) closerWaiting)
      | mainSelect | mainReturned _ => None
      end
  | actSelectStop =>
      match main s with
      | mainSelect =>
          if stop_pending s || negb (stop_closes s =? 0)%nat then
            Some {| wg := wg s; main := mainReturned (Some ErrIntSig);
                    stream := stream s; waiter := waiter s; closer := closer s;
                    stop_pending := false; stop_closes := stop_closes s;
                    exit_buffer := exit_buffer s; exit_closes := exit_closes s;
                    cancelled := true;
                    out := out s ++ [Infof "CTRL+C received, starting shutdown sequence" [];
                                     StopSpinner; StopSpinner] |}
          else None
      | _ => None
      end
  | actSelectExit =>
      match main s with
      | mainSelect =>
          let receive (r : option error) :=
            Some {| wg := wg s; main := mainReturned r;
                    stream := stream s; waiter := waiter s; closer := closer s;
                    stop_pending := stop_pending s; stop_closes := stop_closes s;
                    exit_buffer := None; exit_closes := exit_closes s;
                    cancelled := true;
                    out := out s ++ match r with
                                    | Some e => [InfofErr "exit signal received due to error: %s" e]
                                    | None => []
                                    end ++ [StopSpinner] |} in
          match exit_buffer s with
          | Some r => receive r
          | None => if negb (exit_closes s =? 0)%nat then receive None else None
          end
      | _ => None
      end
  | actInterrupt =>
      Some {| wg := wg s; main := main s; stream := stream s;
              waiter := waiter s; closer := closer s;
              stop_pending := true; stop_closes := stop_closes s;
              exit_buffer := exit_buffer s; exit_closes := exit_closes s;
              cancelled := cancelled s; out := out s |}
  | actStreamReturn e =>
      match stream s with
      | streamRunning =>
          Some {| wg := wg s; main := main s; stream := streamReturned;
                  waiter := waiter s; closer := closer s;
                  stop_pending := stop_pending s; stop_closes := stop_closes s;
                  exit_buffer := exit_buffer s; exit_closes := exit_closes s;
                  cancelled := cancelled s;
                  out := out s ++ match e with
                                  | Some e => [Warning "there was an error streaming pipeline logs: %v" e]
                                  | None => []
                                  end |}
      | _ => None
      end
  | actStreamDone =>
      match stream s with
      | streamReturned =>
          Some (upd s (wg s - 1) (main s) streamExited (waiter s) (closer s))
      | _ => None
      end
  | actWaiterReturn e =>
      match waiter s with
      | waiterRunning =>
          Some (upd s (wg s) (main s) (stream s) (waiterReturned e) (closer s))
      | _ => None
      end
  | actWaiterSend =>
      match waiter s, exit_buffer s with
      | waiterReturned r, None =>
          if (exit_closes s =? 0)%nat then
            Some {| wg := wg s; main := main s; stream := stream s;
                    waiter := waiterExited; closer := closer s;
                    stop_pending := stop_pending s; stop_closes := stop_closes s;
                    exit_buffer := Some r; exit_closes := exit_closes s;
                    cancelled := cancelled s; out := out s |}
          else None
      | _, _ => None
      end
  | actCloser =>
      match closer s with
      | closerWaiting =>
          if wg s =? 0 then
            Some (upd s (wg s) (main s) (stream s) (waiter s) closerCloseStop)
          else None
      | closerCloseStop =>
          Some {| wg := wg s; main := main s; stream := stream s;
                  waiter := waiter s; closer := closerCloseExit;
                  stop_pending := stop_pending s; stop_closes := S (stop_closes s);
                  exit_buffer := exit_buffer s; exit_closes := exit_closes s;
                  cancelled := cancelled s; out := out s |}
      | closerCloseExit =>
          Some {| wg := wg s; main := main s; stream := stream s;
                  waiter := waiter s; closer := closerExited;
                  stop_pending := stop_pending s; stop_closes := stop_closes s;
                  exit_buffer := exit_buffer s; exit_closes := S (exit_closes s);
                  cancelled := cancelled s; out := out s |}
      | closerNotStarted | closerExited => None
      end
  end.

(** Run a schedule; an action that cannot run is skipped. *)
Fixpoint exec (sched : list action) (s : state) : state :=
  match sched with
  | [] => s
  | a :: rest => exec rest (default s (step a s))
  end.

(** Both background activities have run to their end. *)
Definition bothFinished (s : state) : bool :=
  match stream s, waiter s with
  | streamExited, waiterExited => true
  | _, _ => false
  end.

End pipeline.

(** ** Concrete inputs *)

Module examples.
Import build.

Definition dq : string := String quote "".

(** One log line of the remote command, as JSON. *)
Definition jsonLine (level stage message : string) : string :=
  "{" +:+ dq +:+ "level" +:+ dq +:+ ":" +:+ dq +:+ level +:+ dq +:+ ","
  +:+ dq +:+ "stage" +:+ dq +:+ ":" +:+ dq +:+ stage +:+ dq +:+ ","
  +:+ dq +:+ "message" +:+ dq +:+ ":" +:+ dq +:+ message +:+ dq +:+ "}".

Definition sha (hex : string) : Digest := {| Algorithm := "sha256"; Encoded := hex |}.

Definition vertex (hex name : string) (cached : bool) (completed : option Z)
    (error : string) : Vertex :=
  {| Vertex_Digest := sha hex; Vertex_Name := name; Vertex_Completed := completed;
     Vertex_Cached := cached; Vertex_Error := error |}.

Definition status (hex : string) (current total : Z) (completed : option Z)
  : VertexStatus :=
  {| VertexStatus_Vertex := sha hex; VertexStatus_Total := total;
     VertexStatus_Current := current; VertexStatus_Completed := completed |}.

Definition batch (vs : list Vertex) (sts : list VertexStatus) (ls : list VertexLog)
  : SolveStatus :=
  {| Vertexes := vs; Statuses := sts; Logs := ls |}.

(** A batch whose second vertex descriptor reports an error. *)
Definition okVertex : Vertex := vertex "v1" "pull image" true None "".
Definition failingVertex : Vertex := vertex "v0" "compile" false None "exit code 1".
Definition lateVertex : Vertex := vertex "v2" "push image" false (Some 9) "".

Definition mixedBatch : SolveStatus :=
  batch [okVertex; failingVertex; lateVertex] [status "v1" 10 20 (Some 3)]
        [{| VertexLog_Vertex := sha "v1"; VertexLog_Data := "pulled" |}].

(** A failing step. *)
Definition failingBatch : SolveStatus :=
  batch [vertex "v0" "compile" false None "exit code 1"] [] [].

(** A cached, completed test container that logs one line. *)
Definition testName : string :=
  "okteto remote-run test --name " +:+ dq +:+ "unit" +:+ dq.

Definition testBatch : SolveStatus :=
  batch [vertex "v1" testName true (Some 7) ""] []
        [{| VertexLog_Vertex := sha "v1";
            VertexLog_Data := jsonLine "info" "unit" "ok" |}].

(** A step completed by its vertex descriptor. *)
Definition completedBatch : SolveStatus :=
  batch [vertex "v1" "build image" true (Some 7) ""] [] [].

(** A status for that step without a completion marker. *)
Definition runningStatusBatch : SolveStatus :=
  batch [] [status "v1" 10 20 None] [].

(** Both in one batch. *)
Definition completedThenStatusBatch : SolveStatus :=
  batch [vertex "v1" "build image" true (Some 7) ""] [status "v1" 10 20 None] [].

(** Scenario A of the specification: a context transfer of 60 MB. *)
Definition contextBatch : SolveStatus :=
  batch [vertex "v1" "[internal] load build definition" false None ""]
        [status "v1" 60000000 60000000 None] [].

Definition step (name : string) (logs : list string) : vertexInfo :=
  {| name := name; logs := logs; currentTransferedContext := 0;
     totalTransferedContext := 0; completed := false; cached := false |}.

Definition traceWith (v : vertexInfo) : trace :=
  with_ongoing {[ "v1" := v ]} newTrace.

(** A cached test container that has completed. *)
Definition finishedTest : trace :=
  traceWith {| name := testName; logs := []; currentTransferedContext := 0;
               totalTransferedContext := 0; completed := true; cached := true |}.

(** A step with two failures of the stage [build] buffered. *)
Definition twoFailures : trace :=
  traceWith (step "deploy"
               [jsonLine "error" "build" "first"; jsonLine "error" "build" "second"]).

(** A step whose only buffered line names the stage [done]. *)
Definition doneLine : trace :=
  traceWith (step "deploy" [jsonLine "info" "done" "bye"]).

(** The innermost error text says [not found]. *)
Fixpoint notFoundText (e : error) : bool :=
  match e with
  | errorString msg => Contains msg "not found"
  | wrapError _ _ inner => notFoundText inner
  | CommandErr _ inner _ => notFoundText inner
  | ErrIntSig => false
  end.

(** A cluster in which the repository is already gone. *)
Definition goneWorld : pipeline.world :=
  {| pipeline.Getwd := inr "/src/app";
     pipeline.GetRepositoryURL := fun _ => inr "https://github.com/okteto/app";
     pipeline.getPipelineName := fun _ => "app";
     pipeline.Destroy := fun _ _ =>
       pipeline.callFirst None (Some (errorString "pipeline not found"));
     pipeline.waitOutcome := fun _ _ _ => (None, []) |}.

Definition destroyOpts (wait : bool) : pipeline.DestroyOptions :=
  {| pipeline.Name := "app"; pipeline.Namespace := "dev"; pipeline.Wait := wait;
     pipeline.DestroyVolumes := false; pipeline.Timeout := 300 |}.

(** Both background activities of [waitUntilDestroyed] run to their end. *)
Definition bothFinish : list pipeline.action :=
  [pipeline.actMain; pipeline.actMain; pipeline.actMain; pipeline.actMain;
   pipeline.actMain;
   pipeline.actStreamReturn None; pipeline.actStreamDone;
   pipeline.actWaiterReturn None; pipeline.actWaiterSend].

End examples.

(** ** Observations on traces and outputs *)

Module observe.
Import build.

Definition countCalls (p : logCall -> bool) (out : list logCall) : nat :=
  length (List.filter p out).

(** The advisory about the build context. *)
Definition isCtxAdvice (c : logCall) : bool :=
  match c with
  | Information format _ => String.eqb format ctxAdvice
  | _ => false
  end.

(** The announcement of [stage]. *)
Definition isRunningStage (stage : string) (c : logCall) : bool :=
  match c with
  | Information format args =>
      String.eqb format "Running stage '%s'"
      && match args with [arg] => String.eqb arg stage | _ => false end
  | _ => false
  end.

Definition adviceLeft (t : trace) : nat :=
  if showCtxAdvice t then 1 else 0.

Definition announcementsLeft (stage : string) (t : trace) : nat :=
  match stages t !! stage with Some _ => 0 | None => 1 end.

(** The step under [k] is a context transfer above the threshold. *)
Definition largeContextAt (t : trace) (k : string) : bool :=
  match ongoing t !! k with
  | Some v =>
      isTransferringContext (name v)
      && (largeContextThreshold <? currentTransferedContext v)
  | None => false
  end.

(** A stage that [display] treats in the default case of its switch. *)
Definition ordinaryStage (stage : string) : Prop :=
  stage <> "" /\ stage <> "done" /\ stage <> "Load manifest".

(** Every step of [f] pays for the calls it makes that satisfy [p] out of
    the measure [mu] of the trace. *)
Definition accounts {A} (R : nat -> nat -> Prop) (mu : trace -> nat)
    (p : logCall -> bool) (f : trace -> A -> trace * list logCall) : Prop :=
  forall t x, R (countCalls p (snd (f t x)) + mu (fst (f t x)))%nat (mu t).

Definition noError (rawVertex : Vertex) : Prop := Vertex_Error rawVertex = "".

(** The body of the vertex loop when the descriptor carries no error. *)
Definition vertexOK (o : gmap string vertexInfo) (rawVertex : Vertex)
  : gmap string vertexInfo :=
  alter (latch rawVertex) (Encoded (Vertex_Digest rawVertex)) (register o rawVertex).

Definition holdsAt (P : vertexInfo -> Prop) (k : string)
    (o : gmap string vertexInfo) : Prop :=
  exists v, o !! k = Some v /\ P v.

(** All batches of a stream, one [update] after the other; an error of one
    batch does not keep the consumer from handing over the next. *)
Definition updates (t : trace) (batches : list SolveStatus) : trace :=
  fold_left (fun t ss => fst (update t ss)) batches t.

(** What [removeCompletedSteps] leaves of a step. *)
Definition keepRunning (v : vertexInfo) : option vertexInfo :=
  if completed v then None else Some v.

(** What [removeCompletedSteps] prints when its loop reaches [k]. *)
Definition noticeAt (o : gmap string vertexInfo) (k : string) : list logCall :=
  match o !! k with
  | Some v => if completed v then skipNotice v else []
  | None => []
  end.

Definition notQuote (c : ascii) : bool := negb (Ascii.eqb c quote).

(** The text [s] has an occurrence of the pattern of [nameRegex] whose group
    is [val]. *)
Definition matchesName (s val : list ascii) : Prop :=
  exists pre ws post,
    s = pre ++ nameLiteral ++ ws ++ quote :: val ++ quote :: post
    /\ ws <> [] /\ forallb isSpace ws = true
    /\ val <> [] /\ forallb notQuote val = true.

End observe.

Module supervise.
Import pipeline.

(** The [wg.Add(1)] calls that have run and are not yet matched by a
    [wg.Done()]: one for the log stream until its deferred [Done], one for
    the waiter, which has no [Done]. *)
Definition streamShare (s : state) : Z :=
  match main s, stream s with
  | mainAddStream, _ => 0
  | _, streamExited => 0
  | _, _ => 1
  end.

Definition waiterShare (s : state) : Z :=
  match main s with
  | mainAddStream | mainGoStream | mainAddWaiter => 0
  | _ => 1
  end.

(** How far the calling goroutine has come. *)
Definition progressOf (m : main_pc) : nat :=
  match m with
  | mainAddStream => 0
  | mainGoStream => 1
  | mainAddWaiter => 2
  | mainGoWaiter => 3
  | mainGoCloser => 4
  | mainSelect => 5
  | mainReturned _ => 6
  end.

(** What holds of every state the program reaches. *)
Definition invariant (s : state) : Prop :=
  wg s = streamShare s + waiterShare s
  /\ stop_closes s = 0%nat /\ exit_closes s = 0%nat
  /\ (closer s = closerNotStarted
      \/ closer s = closerWaiting /\ (5 <= progressOf (main s))%nat)
  /\ (stream s = streamNotStarted \/ (2 <= progressOf (main s))%nat)
  /\ (waiter s = waiterNotStarted \/ (4 <= progressOf (main s))%nat).

End supervise.

(** ** Further observations on the build trace *)

Module behaviour.
Import build observe.

(** [strings.Join(ls, "\n")], the inverse of the split of a log payload. *)
Fixpoint joinLines (ls : list string) : string :=
  match ls with
  | [] => ""
  | l :: ls' =>
      match ls' with
      | [] => l
      | _ :: _ => l +:+ String newline (joinLines ls')
      end
  end.

Fixpoint countNewlines (s : string) : nat :=
  match s with
  | EmptyString => 0
  | String c s' => (if Ascii.eqb c newline then 1 else 0) + countNewlines s'
  end.

Fixpoint hasNewline (s : string) : bool :=
  match s with
  | EmptyString => false
  | String c s' => Ascii.eqb c newline || hasNewline s'
  end.

(** The identifiers of the vertex descriptors of a batch. *)
Definition vertexIds (ss : SolveStatus) : list string :=
  map (fun rawVertex => Encoded (Vertex_Digest rawVertex)) (Vertexes ss).

(** The lines that the log chunks of a batch carry for the step [k], in the
    order of the chunks. *)
Definition logLinesFor (k : string) (ls : list VertexLog) : list string :=
  flat_map (fun l => if String.eqb (Encoded (VertexLog_Vertex l)) k
                     then splitLines (VertexLog_Data l) else []) ls.

(** What [display] shows for a step without buffered lines. *)
Definition contextSpinner (o : gmap string vertexInfo) (k : string)
  : list logCall :=
  match o !! k with
  | Some v =>
      if isTransferringContext (name v)
         && negb (currentTransferedContext v =? 0)
      then [SpinnerSynchronizing (currentTransferedContext v)] else []
  | None => []
  end.

(** The line is a record that [display] turns into the terminal error: it
    is not empty, it decodes, its level is [error] and its stage is none of
    the empty one, [done] and [Load manifest]. *)
Definition recordsFailure (unmarshal : string -> option JSONLogFormat)
    (log : string) : bool :=
  negb (String.eqb log "")
  && match unmarshal log with
     | Some text =>
         String.eqb (Level text) "error"
         && negb (String.eqb (Stage text) "")
         && negb (String.eqb (Stage text) "done")
         && negb (String.eqb (Stage text) "Load manifest")
     | None => false
     end.

(** An error that [display] records under the output mode [mode]. *)
Definition commandFailure (mode : string) (e : error) : Prop :=
  exists stage msg, e = CommandErr stage (errorString msg) mode.

(** The terminal error of [t], if any, is a command failure under [mode]. *)
Definition fromDisplay (mode : string) (t : trace) : Prop :=
  forall e, err t = Some e -> commandFailure mode e.

Definition isTick (ev : selected) : bool :=
  match ev with timeoutTick => true | _ => false end.

(** A step registered under the name [a], not cached. *)
Definition firstSeen : trace := examples.traceWith (examples.step "a" []).

(** A descriptor for the same step under the name [b], cached, that reports
    an error. *)
Definition resentFailing : SolveStatus :=
  examples.batch [examples.vertex "v1" "b" true None "x"] [] [].

(** A step whose only buffered line is a failure of the stage
    [Load manifest]. *)
Definition manifestLine : trace :=
  examples.traceWith
    (examples.step "deploy" [examples.jsonLine "error" "Load manifest" "bad"]).

(** A step that fails at the stage [build] and then completes. *)
Definition failedDeploy : SolveStatus :=
  examples.batch
    [examples.vertex "v1" "deploy" false (Some 5) ""] []
    [{| VertexLog_Vertex := examples.sha "v1";
        VertexLog_Data := examples.jsonLine "error" "build" "boom" |}].

End behaviour.

Module history.
Import pipeline supervise.

(** What a schedule [sched] that leads to [s] has to contain for what [s]
    holds: an interrupt for a pending signal, the return of the wait call
    for a result that is on its way, and either of them for the value the
    caller returns. *)
Definition explained (sched : list action) (s : state) : Prop :=
  (stop_pending s = true -> actInterrupt ∈ sched)
  /\ (forall r, waiter s = waiterReturned r -> actWaiterReturn r ∈ sched)
  /\ (forall r, exit_buffer s = Some r ->
                actWaiterReturn r ∈ sched /\ waiter s = waiterExited)
  /\ (forall r, main s = mainReturned r ->
                cancelled s = true
                /\ (r = Some ErrIntSig /\ actInterrupt ∈ sched
                    \/ actWaiterReturn r ∈ sched)).

(** The caller leaves on an interrupt; the wait for the action fails
    afterwards. *)
Definition interruptedThenFailed : list action :=
  [actMain; actMain; actMain; actMain; actMain;
   actInterrupt; actSelectStop;
   actWaiterReturn (Some (errorString "timeout"))].

End history.

(** * Properties of the build trace *)

Module buildProofs.
Import build observe.

(** ** The vertex loop of [update] *)

Lemma updateVertex_error o rawVertex :
  Vertex_Error rawVertex <> "" ->
  updateVertex o rawVertex = (register o rawVertex, Some (vertexError rawVertex)).
Proof.
  intros Hne. unfold updateVertex.
  destruct (String.eqb_spec (Vertex_Error rawVertex) ""); [contradiction | reflexivity].
Qed.

Lemma updateVertex_noError o rawVertex :
  noError rawVertex -> updateVertex o rawVertex = (vertexOK o rawVertex, None).
Proof.
  unfold noError, updateVertex. intros ->. reflexivity.
Qed.

Lemma updateVertexes_app pre rest o :
  Forall noError pre ->
  updateVertexes (pre ++ rest) o = updateVertexes rest (fold_left vertexOK pre o).
Proof.
  intros Hpre. revert o.
  induction Hpre as [| rawVertex pre Hv _ IH]; intros o; [reflexivity |].
  cbn [app updateVertexes fold_left].
  rewrite (updateVertex_noError _ _ Hv). apply IH.
Qed.

Lemma updateVertexes_noError vs o :
  Forall noError vs -> updateVertexes vs o = (fold_left vertexOK vs o, None).
Proof.
  intros H. rewrite <- (app_nil_r vs) at 1.
  rewrite updateVertexes_app by assumption. reflexivity.
Qed.

Lemma updateVertexes_first_error pre rawVertex post o :
  Forall noError pre -> Vertex_Error rawVertex <> "" ->
  updateVertexes (pre ++ rawVertex :: post) o
  = (register (fold_left vertexOK pre o) rawVertex, Some (vertexError rawVertex)).
Proof.
  intros Hpre Hne. rewrite updateVertexes_app by assumption.
  cbn [updateVertexes]. rewrite updateVertex_error by assumption. reflexivity.
Qed.

(** ** What [update] keeps of a registered step *)

Section Preserved.

Context (P : vertexInfo -> Prop) (k : string).

Lemma holdsAt_alter f k' o :
  (k' = k -> forall v, P v -> P (f v)) -> holdsAt P k o -> holdsAt P k (alter f k' o).
Proof.
  intros Hf (v & Hv & HP). unfold holdsAt.
  destruct (decide (k' = k)) as [-> | Hne].
  - exists (f v). rewrite lookup_alter_eq, Hv. split; [reflexivity | auto].
  - exists v. rewrite lookup_alter_ne by assumption. auto.
Qed.

Lemma holdsAt_register o rawVertex : holdsAt P k o -> holdsAt P k (register o rawVertex).
Proof.
  intros (v & Hv & HP). unfold register.
  destruct (o !! Encoded (Vertex_Digest rawVertex)) eqn:E; [exists v; auto |].
  exists v. split; [| assumption].
  rewrite lookup_insert_ne; [assumption | congruence].
Qed.

Hypothesis P_latch : forall rawVertex v, P v -> P (latch rawVertex v).

Lemma holdsAt_updateVertex o rawVertex :
  holdsAt P k o -> holdsAt P k (fst (updateVertex o rawVertex)).
Proof.
  intros H. unfold updateVertex.
  destruct (negb _); cbn [fst].
  - by apply holdsAt_register.
  - apply holdsAt_alter; [auto | by apply holdsAt_register].
Qed.

Lemma holdsAt_updateVertexes vs o :
  holdsAt P k o -> holdsAt P k (fst (updateVertexes vs o)).
Proof.
  revert o. induction vs as [| rawVertex vs IH]; intros o H; [exact H |].
  cbn [updateVertexes].
  pose proof (holdsAt_updateVertex o rawVertex H) as H1.
  destruct (updateVertex o rawVertex) as [o1 [e |]]; [exact H1 | by apply IH].
Qed.

Hypothesis P_logs : forall ls v, P v -> P (set_logs ls v).

Lemma holdsAt_updateLogs ls o :
  holdsAt P k o -> holdsAt P k (fold_left updateLog ls o).
Proof.
  revert o. induction ls as [| l ls IH]; intros o H; [exact H |].
  cbn [fold_left]. apply IH. apply holdsAt_alter; [| exact H].
  intros _ v Hv. by apply P_logs.
Qed.

Lemma holdsAt_updateStatuses sts o :
  (forall s, s ∈ sts -> Encoded (VertexStatus_Vertex s) = k ->
             forall v, P v -> P (applyStatus s v)) ->
  holdsAt P k o -> holdsAt P k (fold_left updateStatus sts o).
Proof.
  revert o. induction sts as [| s sts IH]; intros o Hs H; [exact H |].
  cbn [fold_left]. apply IH.
  - intros s' Hin. apply Hs. by right.
  - apply holdsAt_alter; [| exact H]. apply Hs. by left.
Qed.

Lemma holdsAt_update t ss :
  (forall s, s ∈ Statuses ss -> Encoded (VertexStatus_Vertex s) = k ->
             forall v, P v -> P (applyStatus s v)) ->
  holdsAt P k (ongoing t) -> holdsAt P k (ongoing (fst (update t ss))).
Proof.
  intros Hs H. unfold update.
  pose proof (holdsAt_updateVertexes (Vertexes ss) _ H) as H1.
  destruct (updateVertexes (Vertexes ss) (ongoing t)) as [o1 [e |]]; cbn [fst ongoing with_ongoing] in *.
  - exact H1.
  - apply holdsAt_updateLogs. by apply holdsAt_updateStatuses.
Qed.

End Preserved.

Lemma latch_cached rawVertex v : cached v = true -> cached (latch rawVertex v) = true.
Proof.
  unfold latch. by destruct (Vertex_Cached rawVertex), (isSome _).
Qed.

Lemma latch_completed rawVertex v :
  completed v = true -> completed (latch rawVertex v) = true.
Proof.
  unfold latch. by destruct (Vertex_Cached rawVertex), (isSome _).
Qed.

(** The part both latches share: the step stays registered and a property
    that every loop body keeps is kept by the whole stream. *)
Lemma holdsAt_updates (P : vertexInfo -> Prop) k batches t :
  (forall rawVertex v, P v -> P (latch rawVertex v)) ->
  (forall ls v, P v -> P (set_logs ls v)) ->
  (forall ss s, ss ∈ batches -> s ∈ Statuses ss ->
                Encoded (VertexStatus_Vertex s) = k ->
                forall v, P v -> P (applyStatus s v)) ->
  holdsAt P k (ongoing t) -> holdsAt P k (ongoing (updates t batches)).
Proof.
  intros Hl Hg. revert t.
  induction batches as [| ss batches IH]; intros t Hs H; [exact H |].
  cbn [updates fold_left]. apply IH.
  - intros ss' s Hin. apply Hs. by right.
  - apply holdsAt_update; auto. intros s Hin. apply (Hs ss s); [by left | exact Hin].
Qed.

(** C2 (as amended): over any sequence of [update] calls a registered step
    stays registered and its [cached] flag, once true, stays true; its
    [completed] flag, once true, stays true as long as no status update of
    these batches names the step.  (A status update for the step overwrites
    [completed] with the presence of its own completion marker.) *)
Theorem update_latches (batches : list SolveStatus) (t : trace) (k : string)
    (v : vertexInfo) :
  ongoing t !! k = Some v ->
  exists v', ongoing (updates t batches) !! k = Some v'
    /\ (cached v = true -> cached v' = true)
    /\ (completed v = true ->
        (forall ss s, ss ∈ batches -> s ∈ Statuses ss ->
                      Encoded (VertexStatus_Vertex s) <> k) ->
        completed v' = true).
Proof.
  intros Hv.
  assert (Hc : holdsAt (fun x => cached v = true -> cached x = true) k
                 (ongoing (updates t batches))).
  { apply holdsAt_updates.
    - intros rawVertex x Hx Hcv. apply latch_cached. auto.
    - intros ls x Hx. exact Hx.
    - intros _ s _ _ _ x Hx. exact Hx.
    - exists v. auto. }
  destruct Hc as (v1 & Hv1 & Hc).
  exists v1. split; [exact Hv1 |]. split; [exact Hc |].
  intros Hcomp Hno.
  assert (Hd : holdsAt (fun x => completed x = true) k
                 (ongoing (updates t batches))).
  { apply holdsAt_updates.
    - intros rawVertex x. apply latch_completed.
    - intros ls x Hx. exact Hx.
    - intros ss s Hin Hs Hk. exfalso. exact (Hno ss s Hin Hs Hk).
    - exists v. auto. }
  destruct Hd as (v2 & Hv2 & Hd). congruence.
Qed.


Lemma holdsAt_True_updateVertexes k vs o :
  is_Some (o !! k) -> is_Some (fst (updateVertexes vs o) !! k).
Proof.
  intros [v Hv].
  destruct (holdsAt_updateVertexes (fun _ => True) k) with (vs := vs) (o := o)
    as (v' & Hv' & _); [auto | exists v; auto |].
  by exists v'.
Qed.

(** C10 (as amended): a batch whose first erroring vertex descriptor is
    [rawVertex] makes [update] return that vertex's error before anything of
    the later descriptors, of the statuses or of the logs is applied: the
    result is that of the batch cut after this descriptor, and the registry
    is the one the earlier descriptors left, but for the erroring vertex,
    which is registered.  Its entry carries the descriptor's name and cached
    flag when the vertex was not registered before; when it was, the entry
    is left as it is, with the name and cached flag it had.  The other
    fields of the trace are untouched. *)
Theorem update_error_after_registration (t : trace) (ss : SolveStatus)
    (pre post : list Vertex) (rawVertex : Vertex) :
  Vertexes ss = pre ++ rawVertex :: post ->
  Forall noError pre ->
  Vertex_Error rawVertex <> "" ->
  let o := fold_left vertexOK pre (ongoing t) in
  let k := Encoded (Vertex_Digest rawVertex) in
  snd (update t ss) = Some (vertexError rawVertex)
  /\ update t ss
     = update t {| Vertexes := pre ++ [rawVertex]; Statuses := []; Logs := [] |}
  /\ ongoing (fst (update t ss)) !! k
     = Some match o !! k with
            | Some v => v
            | None =>
                {| name := Vertex_Name rawVertex; logs := [];
                   currentTransferedContext := 0; totalTransferedContext := 0;
                   completed := false; cached := Vertex_Cached rawVertex |}
            end
  /\ (forall k', k' <> k -> ongoing (fst (update t ss)) !! k' = o !! k')
  /\ err (fst (update t ss)) = err t
  /\ stages (fst (update t ss)) = stages t
  /\ showCtxAdvice (fst (update t ss)) = showCtxAdvice t.
Proof.
  intros Hvs Hpre Hne o k.
  assert (Hu : forall ss', Vertexes ss' = pre ++ rawVertex :: post \/
                           Vertexes ss' = pre ++ [rawVertex] ->
             update t ss' = (with_ongoing (register o rawVertex) t,
                             Some (vertexError rawVertex))).
  { intros ss' [E | E]; unfold update; rewrite E;
      rewrite updateVertexes_first_error by assumption; reflexivity. }
  split; [rewrite Hu; [reflexivity | by left] |].
  split; [rewrite !Hu; [reflexivity | by right | by left] |].
  rewrite Hu by by left. cbn [fst ongoing err stages showCtxAdvice with_ongoing].
  unfold register. fold k.
  split; [| split; [| done]].
  - destruct (o !! k) eqn:E; [exact E | apply lookup_insert_eq].
  - intros k' Hk'. destruct (o !! k); [done |]. by rewrite lookup_insert_ne.
Qed.

(** C1 (as amended): at the first vertex descriptor with a non-empty error
    string [update] returns the error [error on stage <name>: <error text>];
    the consumer loop logs it, skips [display] and [removeCompletedSteps] for
    that batch and goes on with the next selection on the same trace. *)
Theorem update_error_is_logged_and_skipped
    (unmarshal : string -> option JSONLogFormat) (outputMode : string)
    (t : trace) (ss : SolveStatus) (pre post : list Vertex) (rawVertex : Vertex)
    (rangeDisplay rangeRemove : list string) (rest : list selected) :
  Vertexes ss = pre ++ rawVertex :: post ->
  Forall noError pre ->
  Vertex_Error rawVertex <> "" ->
  let e := errorString ("error on stage " +:+ Vertex_Name rawVertex +:+ ": "
                        +:+ Vertex_Error rawVertex) in
  snd (update t ss) = Some e
  /\ consume unmarshal outputMode (received ss rangeDisplay rangeRemove :: rest) t
     = (let '(t', r, o) := consume unmarshal outputMode rest (fst (update t ss)) in
        (t', r, Info e :: o)).
Proof.
  intros Hvs Hpre Hne e.
  assert (Hu : update t ss
               = (with_ongoing (register (fold_left vertexOK pre (ongoing t)) rawVertex) t,
                  Some e)).
  { unfold update. rewrite Hvs.
    rewrite updateVertexes_first_error by assumption. reflexivity. }
  split; [by rewrite Hu |].
  cbn [consume]. rewrite Hu. reflexivity.
Qed.

(** C3 (as amended): in a batch whose vertex descriptors carry no error, the
    last status naming a step that is registered when the status loop starts
    decides the step's byte counters and its [completed] flag: the counters
    are that status' values and [completed] is the presence of its completion
    marker, whatever the flag was before.  There is one [completed] field:
    the status overwrites what the vertex loop latched. *)
Theorem update_status_last_write_wins (t : trace) (ss : SolveStatus)
    (pre post : list VertexStatus) (s : VertexStatus) :
  snd (update t ss) = None ->
  Statuses ss = pre ++ s :: post ->
  (forall s', s' ∈ post ->
     Encoded (VertexStatus_Vertex s') <> Encoded (VertexStatus_Vertex s)) ->
  is_Some (fst (updateVertexes (Vertexes ss) (ongoing t))
             !! Encoded (VertexStatus_Vertex s)) ->
  exists v, ongoing (fst (update t ss)) !! Encoded (VertexStatus_Vertex s) = Some v
    /\ currentTransferedContext v = VertexStatus_Current s
    /\ totalTransferedContext v = VertexStatus_Total s
    /\ completed v = isSome (VertexStatus_Completed s).
Proof.
  intros Hok Hst Hpost Hreg. unfold update in *.
  destruct (updateVertexes (Vertexes ss) (ongoing t)) as [o1 [e |]];
    [discriminate |].
  cbn [fst snd ongoing with_ongoing] in *.
  set (k := Encoded (VertexStatus_Vertex s)) in *.
  set (P := fun v => currentTransferedContext v = VertexStatus_Current s
                     /\ totalTransferedContext v = VertexStatus_Total s
                     /\ completed v = isSome (VertexStatus_Completed s)).
  assert (H : holdsAt P k (fold_left updateLog (Logs ss)
                             (fold_left updateStatus (Statuses ss) o1))).
  { apply holdsAt_updateLogs; [intros ls v Hv; exact Hv |].
    rewrite Hst, fold_left_app. cbn [fold_left].
    apply holdsAt_updateStatuses.
    { intros s' Hin Hk. exfalso. exact (Hpost s' Hin Hk). }
    destruct (holdsAt_updateStatuses (fun _ => True) k pre o1) as (v0 & Hv0 & _).
    { auto. }
    { destruct Hreg as [v Hv]. exists v. auto. }
    exists (applyStatus s v0). split.
    - unfold updateStatus in *. fold k. by rewrite lookup_alter_eq, Hv0.
    - repeat split. }
  exact H.
Qed.


(** ** Concrete runs of [update] and of the consumer loop *)

(** C10 as amended, at a batch whose second descriptor fails and names a
    step that is not registered: the step is registered from the
    descriptor. *)
Lemma update_error_after_registration_witness :
  ongoing (fst (update newTrace examples.mixedBatch)) !! "v0"
  = Some {| name := "compile"; logs := [];
            currentTransferedContext := 0; totalTransferedContext := 0;
            completed := false; cached := false |}.
Proof.
  refine (proj1 (proj2 (proj2
            (update_error_after_registration newTrace examples.mixedBatch
               [examples.okVertex] [examples.lateVertex] examples.failingVertex
               _ _ _)))).
  - reflexivity.
  - repeat constructor.
  - discriminate.
Defined.

(** C10 fails as stated: a failing descriptor for a step that is already
    registered leaves the entry with the name and the cached flag of its
    first registration; the descriptor's own name shows in the error only. *)
Lemma erroring_vertex_keeps_first_registration :
  ongoing behaviour.firstSeen !! "v1"
  = Some {| name := "a"; logs := [];
            currentTransferedContext := 0; totalTransferedContext := 0;
            completed := false; cached := false |}
  /\ Vertexes behaviour.resentFailing
     = [{| Vertex_Digest := examples.sha "v1"; Vertex_Name := "b";
           Vertex_Completed := None; Vertex_Cached := true;
           Vertex_Error := "x" |}]
  /\ snd (update behaviour.firstSeen behaviour.resentFailing)
     = Some (errorString "error on stage b: x")
  /\ ongoing (fst (update behaviour.firstSeen behaviour.resentFailing)) !! "v1"
     = Some {| name := "a"; logs := [];
               currentTransferedContext := 0; totalTransferedContext := 0;
               completed := false; cached := false |}.
Proof. repeat split; vm_compute; reflexivity. Qed.

(** C1 as amended, at the same batch followed by the end of the stream. *)
Lemma update_error_is_logged_and_skipped_witness :
  snd (update newTrace examples.mixedBatch)
  = Some (errorString "error on stage compile: exit code 1")
  /\ consume unmarshalFlat DeployOutputModeOnBuild
       [received examples.mixedBatch ["v1"; "v0"] ["v1"; "v0"]; chClosed] newTrace
     = (fst (update newTrace examples.mixedBatch), Some None,
        [Info (errorString "error on stage compile: exit code 1"); StopSpinner]).
Proof.
  apply (update_error_is_logged_and_skipped unmarshalFlat DeployOutputModeOnBuild
           newTrace examples.mixedBatch
           [examples.okVertex] [examples.lateVertex] examples.failingVertex
           ["v1"; "v0"] ["v1"; "v0"] [chClosed]).
  - reflexivity.
  - repeat constructor.
  - discriminate.
Defined.

(** C1 fails as stated: after a batch with a failing vertex the loop takes
    the next batch, renders its log line and prunes its completed step. *)
Lemma deployDisplayer_goes_on_after_error :
  snd (update newTrace examples.failingBatch)
  = Some (errorString "error on stage compile: exit code 1")
  /\ deployDisplayer unmarshalFlat
       [received examples.failingBatch ["v0"] ["v0"];
        received examples.testBatch ["v0"; "v1"] ["v0"; "v1"];
        chClosed]
       {| OutputMode := TestOutputModeOnBuild |}
     = (Some None,
        [Spinner "Synchronizing context..."; StartSpinner;
         Info (errorString "error on stage compile: exit code 1");
         Spinner "Running tests..."; SetStage "unit"; Println "ok"; SetStage "";
         Information "Skipping test container '%s', CACHED" ["unit"];
         StopSpinner; StopSpinner]).
Proof. split; vm_compute; reflexivity. Qed.

(** C2 as amended, at a step registered as cached and completed, over a
    stream of two batches that carry no status for it. *)
Lemma update_latches_witness :
  exists v',
    ongoing (updates (fst (update newTrace examples.completedBatch))
               [examples.failingBatch; examples.completedBatch]) !! "v1" = Some v'
    /\ cached v' = true /\ completed v' = true.
Proof.
  destruct (update_latches [examples.failingBatch; examples.completedBatch]
              (fst (update newTrace examples.completedBatch)) "v1"
              {| name := "build image"; logs := [];
                 currentTransferedContext := 0; totalTransferedContext := 0;
                 completed := true; cached := true |})
    as (v' & Hv' & Hcached & Hcompleted).
  - vm_compute. reflexivity.
  - exists v'. split; [exact Hv' |]. split; [by apply Hcached |].
    apply Hcompleted; [reflexivity |].
    intros ss s Hss Hs.
    repeat (apply elem_of_cons in Hss as [-> | Hss];
            [by apply not_elem_of_nil in Hs |]).
    by apply not_elem_of_nil in Hss.
Defined.

(** C2 fails as stated: a status without completion marker resets the
    [completed] flag that the vertex descriptor had set. *)
Lemma completed_reset_by_status :
  completed <$> ongoing (fst (update newTrace examples.completedBatch)) !! "v1"
  = Some true
  /\ completed <$> ongoing (fst (update (fst (update newTrace examples.completedBatch))
                                   examples.runningStatusBatch)) !! "v1"
     = Some false.
Proof. split; vm_compute; reflexivity. Qed.

(** C3 as amended, at scenario A of the specification. *)
Lemma update_status_last_write_wins_witness :
  exists v,
    ongoing (fst (update newTrace examples.contextBatch)) !! "v1" = Some v
    /\ currentTransferedContext v = 60000000
    /\ totalTransferedContext v = 60000000
    /\ completed v = false.
Proof.
  apply (update_status_last_write_wins newTrace examples.contextBatch [] []
           (examples.status "v1" 60000000 60000000 None)).
  - reflexivity.
  - reflexivity.
  - intros s' Hs'. by apply not_elem_of_nil in Hs'.
  - vm_compute. by eexists.
Defined.

(** C3 fails as stated: there is no status-level flag next to the vertex
    level one.  In one batch the vertex loop sets [completed], and the status
    of the same batch, which has no completion marker, clears that very
    field. *)
Lemma status_overwrites_vertex_completed :
  completed <$> fst (updateVertexes (Vertexes examples.completedThenStatusBatch) ∅)
                  !! "v1" = Some true
  /\ ongoing (fst (update newTrace examples.completedThenStatusBatch)) !! "v1"
     = Some {| name := "build image"; logs := [];
               currentTransferedContext := 10; totalTransferedContext := 20;
               completed := false; cached := true |}.
Proof. split; vm_compute; reflexivity. Qed.

End buildProofs.

(** * Properties of [display] and of sequences of calls *)

Module displayProofs.
Import build observe.

Lemma countCalls_app p o1 o2 :
  countCalls p (o1 ++ o2) = (countCalls p o1 + countCalls p o2)%nat.
Proof. unfold countCalls. by rewrite List.filter_app, length_app. Qed.

(** ** Loops keep what their bodies keep *)

Lemma forEach_inv {A} (I : trace -> Prop) (f : trace -> A -> trace * list logCall) :
  (forall t x, I t -> I (fst (f t x))) ->
  forall xs t, I t -> I (fst (forEach f xs t)).
Proof.
  intros Hf xs. induction xs as [| x xs IH]; intros t Ht; [exact Ht |].
  cbn [forEach]. specialize (Hf t x Ht).
  destruct (f t x) as [t1 o1]. specialize (IH t1 Hf).
  destruct (forEach f xs t1) as [t2 o2]. exact IH.
Qed.

Section Accounting.

Context (R : nat -> nat -> Prop) (mu : trace -> nat) (p : logCall -> bool).
Hypothesis R_refl : forall n, R n n.
Hypothesis R_step : forall c1 c2 m0 m1 m2 : nat,
  R (c1 + m1)%nat m0 -> R (c2 + m2)%nat m1 -> R (c1 + c2 + m2)%nat m0.

Lemma accounts_forEach {A} (f : trace -> A -> trace * list logCall) :
  accounts R mu p f -> accounts R mu p (fun t xs => forEach f xs t).
Proof.
  intros Hf t xs. revert t.
  induction xs as [| x xs IH]; intros t; cbn [forEach].
  - apply R_refl.
  - specialize (Hf t x). destruct (f t x) as [t1 o1].
    specialize (IH t1). destruct (forEach f xs t1) as [t2 o2].
    cbn [fst snd] in *. rewrite countCalls_app. eauto.
Qed.

End Accounting.

Lemma le_step (c1 c2 m0 m1 m2 : nat) :
  (c1 + m1 <= m0 -> c2 + m2 <= m1 -> c1 + c2 + m2 <= m0)%nat.
Proof. lia. Qed.

Lemma eq_step (c1 c2 m0 m1 m2 : nat) :
  (c1 + m1 = m0 -> c2 + m2 = m1 -> c1 + c2 + m2 = m0)%nat.
Proof. lia. Qed.

Ltac step_cases :=
  repeat (case_match; simplify_eq; cbn [fst snd] in * ); try done.

Section Display.

Context (unmarshal : string -> option JSONLogFormat).

(** ** What one log line changes *)

Lemma displayLog_frame progress t log :
  ongoing (fst (displayLog unmarshal progress t log)) = ongoing t
  /\ showCtxAdvice (fst (displayLog unmarshal progress t log)) = showCtxAdvice t.
Proof. unfold displayLog, displayStage. by step_cases. Qed.

Lemma displayLog_no_advice progress t log :
  countCalls isCtxAdvice (snd (displayLog unmarshal progress t log)) = 0%nat.
Proof. unfold displayLog, displayStage. by step_cases. Qed.

Lemma displayLog_err_set progress t log :
  is_Some (err t) -> is_Some (err (fst (displayLog unmarshal progress t log))).
Proof. unfold displayLog, displayStage. by step_cases. Qed.

Lemma displayLogs_frame progress logs t :
  ongoing (fst (forEach (displayLog unmarshal progress) logs t)) = ongoing t
  /\ showCtxAdvice (fst (forEach (displayLog unmarshal progress) logs t))
     = showCtxAdvice t.
Proof.
  apply (forEach_inv
           (fun t' => ongoing t' = ongoing t /\ showCtxAdvice t' = showCtxAdvice t));
    [| by split].
  intros t' log [<- <-]. apply displayLog_frame.
Qed.


(** ** The context advisory *)

Lemma displayContext_advice t v :
  (countCalls isCtxAdvice (snd (displayContext t v))
   + adviceLeft (fst (displayContext t v)) = adviceLeft t)%nat.
Proof.
  unfold displayContext, adviceLeft.
  destruct (isTransferringContext (name v)),
    (negb (currentTransferedContext v =? 0)), (showCtxAdvice t) eqn:E,
    (largeContextThreshold <? currentTransferedContext v);
    cbn; rewrite ?E; reflexivity.
Qed.

Lemma displayContext_frame t v :
  ongoing (fst (displayContext t v)) = ongoing t
  /\ stages (fst (displayContext t v)) = stages t
  /\ err (fst (displayContext t v)) = err t.
Proof. unfold displayContext. by step_cases. Qed.

Lemma displayContext_latch t v :
  showCtxAdvice (fst (displayContext t v))
  = showCtxAdvice t
    && negb (isTransferringContext (name v)
             && (largeContextThreshold <? currentTransferedContext v)).
Proof.
  unfold displayContext.
  destruct (isTransferringContext (name v)); [| by rewrite andb_true_r].
  destruct (Z.eqb_spec (currentTransferedContext v) 0) as [-> | Hne]; cbn [negb fst].
  - by rewrite andb_true_r.
  - destruct (showCtxAdvice t) eqn:E,
      (largeContextThreshold <? currentTransferedContext v);
      cbn; rewrite ?E; reflexivity.
Qed.

Lemma existsb_same {A} (f g : A -> bool) (l : list A) :
  (forall x, f x = g x) -> existsb f l = existsb g l.
Proof. intros H. induction l as [| x l IH]; cbn; [done | by rewrite H, IH]. Qed.

Lemma progressSpinner_silent p progress :
  (forall msg, p (Spinner msg) = false) ->
  countCalls p (progressSpinner progress) = 0%nat.
Proof.
  intros Hp. unfold progressSpinner, countCalls.
  step_cases; cbn; by rewrite ?Hp.
Qed.

Lemma displayLog_advice progress :
  accounts eq adviceLeft isCtxAdvice (displayLog unmarshal progress).
Proof.
  intros t log. rewrite displayLog_no_advice. unfold adviceLeft.
  by destruct (displayLog_frame progress t log) as [_ ->].
Qed.

Lemma displayVertex_advice progress :
  accounts eq adviceLeft isCtxAdvice (displayVertex unmarshal progress).
Proof.
  intros t k. unfold displayVertex.
  destruct (ongoing t !! k) as [v |]; [| reflexivity].
  pose proof (displayContext_advice t v) as Hc.
  destruct (displayContext t v) as [t1 o1]. cbn [fst snd] in Hc.
  destruct (hasCommandLogs v); [| exact Hc].
  pose proof (accounts_forEach eq adviceLeft isCtxAdvice (fun _ => eq_refl) eq_step
                _ (displayLog_advice progress) t1 (logs v)) as Hl.
  destruct (forEach (displayLog unmarshal progress) (logs v) t1) as [t2 o2].
  cbn [fst snd] in *. rewrite !countCalls_app.
  rewrite progressSpinner_silent by reflexivity.
  change (adviceLeft (with_ongoing _ t2)) with (adviceLeft t2).
  change (countCalls isCtxAdvice [SetStage ""]) with 0%nat. lia.
Qed.

Lemma displayVertex_latch progress t k :
  showCtxAdvice (fst (displayVertex unmarshal progress t k))
  = showCtxAdvice t && negb (largeContextAt t k).
Proof.
  unfold displayVertex, largeContextAt.
  destruct (ongoing t !! k) as [v |]; [| by rewrite andb_true_r].
  pose proof (displayContext_latch t v) as Hc.
  destruct (displayContext t v) as [t1 o1]. cbn [fst] in Hc.
  destruct (hasCommandLogs v); [| exact Hc].
  destruct (displayLogs_frame progress (logs v) t1) as [_ Hs].
  destruct (forEach (displayLog unmarshal progress) (logs v) t1) as [t2 o2].
  cbn [fst] in *. change (showCtxAdvice (with_ongoing _ t2)) with (showCtxAdvice t2).
  congruence.
Qed.

Lemma displayVertex_largeContextAt progress t k k' :
  largeContextAt (fst (displayVertex unmarshal progress t k)) k' = largeContextAt t k'.
Proof.
  unfold displayVertex, largeContextAt.
  destruct (ongoing t !! k) as [v |] eqn:Ev; [| reflexivity].
  destruct (displayContext_frame t v) as (Ho & _).
  destruct (displayContext t v) as [t1 o1]. cbn [fst] in Ho.
  destruct (hasCommandLogs v); cbn [fst]; [| by rewrite Ho].
  destruct (displayLogs_frame progress (logs v) t1) as [Ho2 _].
  destruct (forEach (displayLog unmarshal progress) (logs v) t1) as [t2 o2].
  cbn [fst ongoing with_ongoing] in *.
  destruct (decide (k = k')) as [<- | Hne].
  - by rewrite lookup_insert_eq, Ev.
  - rewrite lookup_insert_ne by assumption. by rewrite Ho2, Ho.
Qed.

Lemma display_latch range progress t :
  showCtxAdvice (fst (display unmarshal range progress t))
  = showCtxAdvice t && negb (existsb (largeContextAt t) range).
Proof.
  unfold display. revert t.
  induction range as [| k range IH]; intros t; cbn [forEach existsb].
  - by rewrite andb_true_r.
  - pose proof (displayVertex_latch progress t k) as Hk.
    pose proof (displayVertex_largeContextAt progress t k) as Hsame.
    destruct (displayVertex unmarshal progress t k) as [t1 o1].
    specialize (IH t1).
    destruct (forEach (displayVertex unmarshal progress) range t1) as [t2 o2].
    cbn [fst] in *. rewrite IH, Hk.
    rewrite (existsb_same _ _ range Hsame).
    rewrite negb_orb. by rewrite andb_assoc.
Qed.

Lemma skipNotice_silent p v :
  (forall args, p (Information "Skipping test container '%s', CACHED" args) = false) ->
  (forall args, p (Information "Skipping test container, CACHED" args) = false) ->
  countCalls p (skipNotice v) = 0%nat.
Proof.
  intros Hp Hq. unfold skipNotice, countCalls.
  step_cases; cbn; by rewrite ?Hp, ?Hq.
Qed.


Lemma update_frame t ss :
  err (fst (update t ss)) = err t
  /\ stages (fst (update t ss)) = stages t
  /\ showCtxAdvice (fst (update t ss)) = showCtxAdvice t.
Proof. unfold update. by step_cases. Qed.

Lemma removeCompletedStep_frame t k :
  err (fst (removeCompletedStep t k)) = err t
  /\ stages (fst (removeCompletedStep t k)) = stages t
  /\ showCtxAdvice (fst (removeCompletedStep t k)) = showCtxAdvice t.
Proof. unfold removeCompletedStep. by step_cases. Qed.

Lemma removeCompletedStep_advice :
  accounts eq adviceLeft isCtxAdvice removeCompletedStep.
Proof.
  intros t k. unfold adviceLeft.
  destruct (removeCompletedStep_frame t k) as (_ & _ & ->).
  unfold removeCompletedStep. step_cases; cbn [snd];
    rewrite ?skipNotice_silent by reflexivity; done.
Qed.

Lemma runCall_advice : accounts eq adviceLeft isCtxAdvice (runCall unmarshal).
Proof.
  intros t [ss | range progress | range]; cbn [runCall fst snd].
  - unfold adviceLeft. by destruct (update_frame t ss) as (_ & _ & ->).
  - apply (accounts_forEach eq adviceLeft isCtxAdvice (fun _ => eq_refl) eq_step
             _ (displayVertex_advice progress)).
  - apply (accounts_forEach eq adviceLeft isCtxAdvice (fun _ => eq_refl) eq_step
             _ removeCompletedStep_advice).
Qed.

(** ** Stage announcements *)

Lemma displayStage_announce progress stage t text :
  (countCalls (isRunningStage stage) (snd (displayStage progress t text))
   + announcementsLeft stage (fst (displayStage progress t text))
   <= announcementsLeft stage t)%nat.
Proof.
  unfold displayStage, announcementsLeft.
  destruct (stages t !! Stage text) eqn:E.
  - step_cases; cbn [stages with_stages with_err] in *; simplify_eq;
      rewrite ?countCalls_app; cbn; lia.
  - destruct (decide (Stage text = stage)) as [<- | Hne].
    + rewrite E. step_cases; cbn [stages with_stages with_err] in *;
        rewrite ?lookup_insert_eq in *; simplify_eq;
        rewrite ?countCalls_app; cbn; rewrite ?String.eqb_refl; cbn; lia.
    + assert (Heq : (Stage text =? stage)%string = false)
        by by apply String.eqb_neq.
      step_cases; cbn [stages with_stages with_err] in *;
        rewrite ?lookup_insert_ne in * by assumption; simplify_eq;
        rewrite ?countCalls_app; cbn; rewrite ?Heq; cbn; lia.
Qed.

Lemma displayLog_announce progress stage :
  accounts le (announcementsLeft stage) (isRunningStage stage)
    (displayLog unmarshal progress).
Proof.
  intros t log. unfold displayLog.
  pose proof (fun text => displayStage_announce progress stage t text) as Hs.
  repeat (case_match; simplify_eq; cbn [fst snd]); try (cbn; lia).
  match goal with H : displayStage _ _ ?text = _ |- _ =>
    specialize (Hs text); rewrite H in Hs end.
  cbn [fst snd] in *. exact Hs.
Qed.

Lemma displayVertex_announce progress stage :
  accounts le (announcementsLeft stage) (isRunningStage stage)
    (displayVertex unmarshal progress).
Proof.
  intros t k. unfold displayVertex.
  destruct (ongoing t !! k) as [v |]; [| reflexivity].
  destruct (displayContext_frame t v) as (_ & Hst & _).
  assert (Hc : countCalls (isRunningStage stage) (snd (displayContext t v)) = 0%nat).
  { unfold displayContext. step_cases. }
  destruct (displayContext t v) as [t1 o1]. cbn [fst snd] in *.
  assert (H1 : announcementsLeft stage t1 = announcementsLeft stage t)
    by (unfold announcementsLeft; by rewrite Hst).
  destruct (hasCommandLogs v); cbn [fst snd]; [| lia].
  pose proof (accounts_forEach le (announcementsLeft stage) (isRunningStage stage)
                Nat.le_refl le_step _ (displayLog_announce progress stage)
                t1 (logs v)) as Hl.
  destruct (forEach (displayLog unmarshal progress) (logs v) t1) as [t2 o2].
  cbn [fst snd] in *. rewrite !countCalls_app.
  rewrite progressSpinner_silent by reflexivity.
  change (announcementsLeft stage (with_ongoing _ t2)) with (announcementsLeft stage t2).
  change (countCalls (isRunningStage stage) [SetStage ""]) with 0%nat. lia.
Qed.

Lemma removeCompletedStep_announce stage :
  accounts le (announcementsLeft stage) (isRunningStage stage) removeCompletedStep.
Proof.
  intros t k. unfold announcementsLeft.
  destruct (removeCompletedStep_frame t k) as (_ & -> & _).
  unfold removeCompletedStep. step_cases; cbn [snd];
    rewrite ?skipNotice_silent by reflexivity; cbn; lia.
Qed.

Lemma runCall_announce stage :
  accounts le (announcementsLeft stage) (isRunningStage stage) (runCall unmarshal).
Proof.
  intros t [ss | range progress | range]; cbn [runCall fst snd].
  - unfold announcementsLeft. destruct (update_frame t ss) as (_ & -> & _).
    cbn. lia.
  - apply (accounts_forEach le _ _ Nat.le_refl le_step
             _ (displayVertex_announce progress stage)).
  - apply (accounts_forEach le _ _ Nat.le_refl le_step
             _ (removeCompletedStep_announce stage)).
Qed.

(** In test mode a log line announces nothing. *)
Lemma displayLog_test_silent stage :
  accounts eq (fun _ => 0%nat) (isRunningStage stage)
    (displayLog unmarshal TestOutputModeOnBuild).
Proof.
  intros t log. unfold displayLog, displayStage.
  change (negb (TestOutputModeOnBuild =? TestOutputModeOnBuild)%string) with false.
  step_cases.
Qed.

Lemma displayVertex_test_silent stage :
  accounts eq (fun _ => 0%nat) (isRunningStage stage)
    (displayVertex unmarshal TestOutputModeOnBuild).
Proof.
  intros t k. unfold displayVertex.
  destruct (ongoing t !! k) as [v |]; [| reflexivity].
  assert (Hc : countCalls (isRunningStage stage) (snd (displayContext t v)) = 0%nat).
  { unfold displayContext. step_cases. }
  destruct (displayContext t v) as [t1 o1]. cbn [fst snd] in *.
  destruct (hasCommandLogs v); cbn [fst snd]; [| lia].
  pose proof (accounts_forEach eq (fun _ => 0%nat) (isRunningStage stage)
                (fun _ => eq_refl) eq_step _ (displayLog_test_silent stage)
                t1 (logs v)) as Hl.
  destruct (forEach (displayLog unmarshal TestOutputModeOnBuild) (logs v) t1)
    as [t2 o2].
  cbn [fst snd] in *. rewrite !countCalls_app.
  rewrite progressSpinner_silent by reflexivity.
  change (countCalls (isRunningStage stage) [SetStage ""]) with 0%nat. lia.
Qed.

(** ** The terminal error *)

Lemma displayVertex_err_set progress t k :
  is_Some (err t) -> is_Some (err (fst (displayVertex unmarshal progress t k))).
Proof.
  intros H. unfold displayVertex.
  destruct (ongoing t !! k) as [v |]; [| exact H].
  destruct (displayContext_frame t v) as (_ & _ & He).
  destruct (displayContext t v) as [t1 o1]. cbn [fst] in He.
  rewrite <- He in H.
  destruct (hasCommandLogs v); [| exact H].
  pose proof (forEach_inv (fun t' => is_Some (err t')) _
                (displayLog_err_set progress) (logs v) t1 H) as Hl.
  destruct (forEach (displayLog unmarshal progress) (logs v) t1) as [t2 o2].
  exact Hl.
Qed.

Lemma runCall_err_set t c :
  is_Some (err t) -> is_Some (err (fst (runCall unmarshal t c))).
Proof.
  intros H. destruct c as [ss | range progress | range]; cbn [runCall fst].
  - by destruct (update_frame t ss) as (-> & _).
  - apply (forEach_inv (fun t' => is_Some (err t'))); [| exact H].
    intros t' k. apply displayVertex_err_set.
  - apply (forEach_inv (fun t' => is_Some (err t'))); [| exact H].
    intros t' k. by destruct (removeCompletedStep_frame t' k) as (-> & _).
Qed.

End Display.


(** ** Stages that are never announced *)

Section Special.

Context (unmarshal : string -> option JSONLogFormat) (stage : string).
Hypothesis special : ~ ordinaryStage stage.

Lemma displayLog_special_silent progress :
  accounts eq (fun _ => 0%nat) (isRunningStage stage)
    (displayLog unmarshal progress).
Proof.
  intros t log. unfold displayLog.
  destruct (String.eqb log ""); [done |].
  destruct (unmarshal log) as [text |]; [| done].
  destruct (String.eqb_spec (Stage text) "") as [| H1]; [done |].
  destruct (String.eqb_spec (Stage text) "done") as [| H2]; [done |].
  destruct (String.eqb_spec (Stage text) "Load manifest") as [| H3].
  { by destruct (String.eqb (Level text) "error"). }
  assert (Hne : (Stage text =? stage)%string = false).
  { apply String.eqb_neq. intros <-. by apply special. }
  unfold displayStage.
  destruct (stages t !! Stage text), (negb (progress =? TestOutputModeOnBuild)%string),
    (String.eqb (Level text) "error"), (negb (Stage text =? "")%string);
    cbn [fst snd]; unfold countCalls; cbn; by rewrite ?Hne.
Qed.

Lemma displayVertex_special_silent progress :
  accounts eq (fun _ => 0%nat) (isRunningStage stage)
    (displayVertex unmarshal progress).
Proof.
  intros t k. unfold displayVertex.
  destruct (ongoing t !! k) as [v |]; [| reflexivity].
  assert (Hc : countCalls (isRunningStage stage) (snd (displayContext t v)) = 0%nat).
  { unfold displayContext. step_cases. }
  destruct (displayContext t v) as [t1 o1]. cbn [fst snd] in *.
  destruct (hasCommandLogs v); cbn [fst snd]; [| lia].
  pose proof (accounts_forEach eq (fun _ => 0%nat) (isRunningStage stage)
                (fun _ => eq_refl) eq_step _ (displayLog_special_silent progress)
                t1 (logs v)) as Hl.
  destruct (forEach (displayLog unmarshal progress) (logs v) t1) as [t2 o2].
  cbn [fst snd] in *. rewrite !countCalls_app.
  rewrite progressSpinner_silent by reflexivity.
  change (countCalls (isRunningStage stage) [SetStage ""]) with 0%nat. lia.
Qed.

Lemma runCall_special_silent :
  accounts eq (fun _ => 0%nat) (isRunningStage stage) (runCall unmarshal).
Proof.
  intros t [ss | range progress | range]; cbn [runCall fst snd].
  - reflexivity.
  - apply (accounts_forEach eq (fun _ => 0%nat) (isRunningStage stage)
             (fun _ => eq_refl) eq_step
             _ (displayVertex_special_silent progress) t range).
  - assert (Hstep : accounts eq (fun _ => 0%nat) (isRunningStage stage)
                      removeCompletedStep).
    { intros t' k. unfold removeCompletedStep. step_cases; cbn [snd];
        rewrite ?skipNotice_silent by reflexivity; reflexivity. }
    apply (accounts_forEach eq (fun _ => 0%nat) (isRunningStage stage)
             (fun _ => eq_refl) eq_step _ Hstep t range).
Qed.

End Special.

(** ** The claims about [display] *)

(** C6: over any sequence of [update], [display] and [removeCompletedSteps]
    calls on one trace the advisory about the build context is printed once
    if the latch [showCtxAdvice] is consumed and not at all otherwise, so at
    most once from a new trace; a [display] call prints it exactly when the
    latch is still set and one of the steps it visits is a context transfer
    above [largeContextThreshold], and that call clears the latch. *)
Theorem ctx_advice_printed_once (unmarshal : string -> option JSONLogFormat)
    (calls : list call) (t : trace) (range : list string) (progress : string) :
  (countCalls isCtxAdvice (snd (runCalls unmarshal calls t))
   + adviceLeft (fst (runCalls unmarshal calls t)) = adviceLeft t)%nat
  /\ (countCalls isCtxAdvice (snd (runCalls unmarshal calls newTrace)) <= 1)%nat
  /\ countCalls isCtxAdvice (snd (display unmarshal range progress t))
     = (if showCtxAdvice t && existsb (largeContextAt t) range then 1 else 0)%nat
  /\ showCtxAdvice (fst (display unmarshal range progress t))
     = showCtxAdvice t && negb (existsb (largeContextAt t) range).
Proof.
  pose proof (fun t => accounts_forEach eq adviceLeft isCtxAdvice (fun _ => eq_refl)
                eq_step _ (runCall_advice unmarshal) t calls) as Hcalls.
  split; [apply Hcalls |].
  split; [specialize (Hcalls newTrace); cbn in Hcalls; unfold runCalls; lia |].
  pose proof (display_latch unmarshal range progress t) as Hlatch.
  split; [| exact Hlatch].
  pose proof (accounts_forEach eq adviceLeft isCtxAdvice (fun _ => eq_refl)
                eq_step _ (displayVertex_advice unmarshal progress) t range) as Hd.
  unfold display in *. cbn beta in Hd. unfold adviceLeft in Hd. rewrite Hlatch in Hd.
  destruct (showCtxAdvice t), (existsb (largeContextAt t) range); cbn in *; lia.
Qed.

(** C7 (as amended): over any sequence of calls on one trace the
    announcement of a stage is printed at most once, and not at all when the
    stage is already in [stages]; a [display] in test mode announces nothing;
    in any other mode a decoded log line whose stage is not empty, [done] or
    [Load manifest] announces its stage exactly when the stage is not yet in
    [stages], and leaves it there; and the empty stage, [done] and
    [Load manifest] are never announced, in any mode and from any trace. *)
Theorem stage_announced_once (unmarshal : string -> option JSONLogFormat) :
  (forall calls t stage,
     (countCalls (isRunningStage stage) (snd (runCalls unmarshal calls t))
      + announcementsLeft stage (fst (runCalls unmarshal calls t))
      <= announcementsLeft stage t)%nat)
  /\ (forall range t stage,
        countCalls (isRunningStage stage)
          (snd (display unmarshal range TestOutputModeOnBuild t)) = 0%nat)
  /\ (forall progress t log text,
        progress <> TestOutputModeOnBuild ->
        log <> "" ->
        unmarshal log = Some text ->
        ordinaryStage (Stage text) ->
        countCalls (isRunningStage (Stage text))
          (snd (displayLog unmarshal progress t log))
        = announcementsLeft (Stage text) t
        /\ is_Some (stages (fst (displayLog unmarshal progress t log)) !! Stage text))
  /\ (forall calls t stage,
        stage = "" \/ stage = "done" \/ stage = "Load manifest" ->
        countCalls (isRunningStage stage) (snd (runCalls unmarshal calls t)) = 0%nat).
Proof.
  split; [| split; [| split]].
  - intros calls t stage.
    apply (accounts_forEach le _ _ Nat.le_refl le_step _
             (runCall_announce unmarshal stage)).
  - intros range t stage.
    pose proof (accounts_forEach eq (fun _ => 0%nat) (isRunningStage stage)
                  (fun _ => eq_refl) eq_step _
                  (displayVertex_test_silent unmarshal stage) t range) as H.
    unfold display. cbn beta in H. lia.
  - intros progress t log text Hmode Hlog Hdec (Hs1 & Hs2 & Hs3).
    unfold displayLog, displayStage, announcementsLeft.
    apply String.eqb_neq in Hlog, Hmode, Hs1, Hs2, Hs3.
    rewrite Hlog, Hdec, Hs1, Hs2, Hs3, Hmode. cbn [negb].
    destruct (stages t !! Stage text) eqn:E;
      destruct (Level text =? "error")%string;
      cbn [fst snd stages with_stages with_err];
      rewrite ?lookup_insert_eq, ?E; unfold countCalls; cbn;
      rewrite ?String.eqb_refl; cbn; split; try reflexivity; by eexists.
  - intros calls t stage Hspecial.
    assert (Hno : ~ ordinaryStage stage).
    { intros (H1 & H2 & H3). by destruct Hspecial as [? | [? | ?]]. }
    pose proof (accounts_forEach eq (fun _ => 0%nat) (isRunningStage stage)
                  (fun _ => eq_refl) eq_step _
                  (runCall_special_silent unmarshal stage Hno) t calls) as H.
    unfold runCalls. cbn beta in H. lia.
Qed.

(** C4 (as amended): every error-level record of a stage other than the
    empty one, [done] and [Load manifest] makes itself the terminal error of
    the trace, whatever was recorded before (the last one wins); and a trace
    that has a terminal error keeps having one over any sequence of calls. *)
Theorem terminal_error_last_wins (unmarshal : string -> option JSONLogFormat) :
  (forall progress t log text,
     log <> "" ->
     unmarshal log = Some text ->
     ordinaryStage (Stage text) ->
     Level text = "error" ->
     err (fst (displayLog unmarshal progress t log))
     = Some (CommandErr (Stage text) (errorString (Message text)) progress))
  /\ (forall calls t,
        is_Some (err t) -> is_Some (err (fst (runCalls unmarshal calls t)))).
Proof.
  split.
  - intros progress t log text Hlog Hdec (Hs1 & Hs2 & Hs3) Hlevel.
    unfold displayLog, displayStage.
    apply String.eqb_neq in Hlog, Hs1, Hs2, Hs3.
    rewrite Hlog, Hdec, Hs1, Hs2, Hs3, Hlevel. cbn [negb String.eqb].
    by destruct (stages t !! Stage text).
  - intros calls t. apply (forEach_inv (fun t' => is_Some (err t'))).
    intros t' c. apply runCall_err_set.
Qed.


(** ** Concrete runs of [display] *)

(** C7 as amended, at the first line of the stage [unit] in build mode. *)
Lemma stage_announced_once_witness :
  countCalls (isRunningStage "unit")
    (snd (displayLog unmarshalFlat DeployOutputModeOnBuild newTrace
            (examples.jsonLine "info" "unit" "ok")))
  = 1%nat
  /\ is_Some (stages (fst (displayLog unmarshalFlat DeployOutputModeOnBuild newTrace
                             (examples.jsonLine "info" "unit" "ok"))) !! "unit").
Proof.
  apply (proj1 (proj2 (proj2 (stage_announced_once unmarshalFlat)))
           DeployOutputModeOnBuild newTrace (examples.jsonLine "info" "unit" "ok")
           {| Level := "info"; Stage := "unit"; Message := "ok" |}).
  - discriminate.
  - vm_compute. discriminate.
  - vm_compute. reflexivity.
  - repeat split; discriminate.
Defined.

(** C7 fails as stated: in build mode the first log line that names the
    stage [done] is decoded and announces nothing, and neither does the
    first line of the stage [Load manifest], whose failure is reported by
    [Fail]. *)
Lemma stage_done_not_announced :
  unmarshalFlat (examples.jsonLine "info" "done" "bye")
  = Some {| Level := "info"; Stage := "done"; Message := "bye" |}
  /\ snd (display unmarshalFlat ["v1"] DeployOutputModeOnBuild examples.doneLine)
     = [Spinner "Deploying your development environment...";
        SetStage "done"; SetStage ""]
  /\ countCalls (isRunningStage "done")
       (snd (display unmarshalFlat ["v1"] DeployOutputModeOnBuild examples.doneLine))
     = 0%nat
  /\ unmarshalFlat (examples.jsonLine "error" "Load manifest" "bad")
     = Some {| Level := "error"; Stage := "Load manifest"; Message := "bad" |}
  /\ snd (display unmarshalFlat ["v1"] DeployOutputModeOnBuild
            behaviour.manifestLine)
     = [Spinner "Deploying your development environment...";
        SetStage "Load manifest"; Fail "%s" ["bad"]; SetStage ""].
Proof. repeat split; vm_compute; reflexivity. Qed.

(** C4 as amended, at the first failure of the stage [build]. *)
Lemma terminal_error_last_wins_witness :
  err (fst (displayLog unmarshalFlat DeployOutputModeOnBuild examples.twoFailures
              (examples.jsonLine "error" "build" "first")))
  = Some (CommandErr "build" (errorString "first") DeployOutputModeOnBuild).
Proof.
  apply (proj1 (terminal_error_last_wins unmarshalFlat)
           DeployOutputModeOnBuild examples.twoFailures
           (examples.jsonLine "error" "build" "first")
           {| Level := "error"; Stage := "build"; Message := "first" |}).
  - vm_compute. discriminate.
  - vm_compute. reflexivity.
  - repeat split; discriminate.
  - reflexivity.
Defined.

(** C4 fails as stated: of two error-level records in one [display] call
    the second one is the terminal error afterwards. *)
Lemma terminal_error_overwritten :
  err (fst (displayLog unmarshalFlat DeployOutputModeOnBuild examples.twoFailures
              (examples.jsonLine "error" "build" "first")))
  = Some (CommandErr "build" (errorString "first") DeployOutputModeOnBuild)
  /\ err (fst (display unmarshalFlat ["v1"] DeployOutputModeOnBuild
                 examples.twoFailures))
     = Some (CommandErr "build" (errorString "second") DeployOutputModeOnBuild).
Proof. split; vm_compute; reflexivity. Qed.

(** Scenario A of the specification: the status repeats, the advisory does
    not. *)
Example ctx_advice_scenario_A :
  snd (runCalls unmarshalFlat
         [callUpdate examples.contextBatch; callDisplay ["v1"] DeployOutputModeOnBuild;
          callRemoveCompletedSteps ["v1"];
          callUpdate examples.contextBatch; callDisplay ["v1"] DeployOutputModeOnBuild;
          callRemoveCompletedSteps ["v1"]]
         newTrace)
  = [Information ctxAdvice []; SpinnerSynchronizing 60000000;
     SpinnerSynchronizing 60000000].
Proof. vm_compute. reflexivity. Qed.

End displayProofs.

(** * Properties of [removeCompletedSteps] *)

Module pruneProofs.
Import build observe.

(** ** The name pattern *)

Lemma hasPrefixL_app p s : hasPrefixL p s = true -> s = p ++ drop (length p) s.
Proof.
  revert s. induction p as [| a p IH]; intros [| b s] H; cbn in *; try done.
  apply andb_true_iff in H as [Hab Hp].
  apply Ascii.eqb_eq in Hab as ->. f_equal. by apply IH.
Qed.

Lemma hasPrefixL_refl p s : hasPrefixL p (p ++ s) = true.
Proof. induction p as [| a p IH]; cbn; [done |]. by rewrite Ascii.eqb_refl. Qed.

Lemma dropSpaces_app s :
  exists ws, s = ws ++ dropSpaces s /\ forallb isSpace ws = true.
Proof.
  induction s as [| c s (ws & Hs & Hws)]; [by exists [] |].
  cbn. destruct (isSpace c) eqn:E; [| by exists []].
  exists (c :: ws). cbn. rewrite E, Hws. split; [by f_equal | done].
Qed.

Lemma dropSpaces_spaces ws s :
  forallb isSpace ws = true -> dropSpaces (ws ++ quote :: s) = quote :: s.
Proof.
  induction ws as [| c ws IH]; cbn; [done |].
  intros H. apply andb_true_iff in H as [-> H]. by apply IH.
Qed.

Lemma spanValue_app s val rest :
  spanValue s = (val, rest) ->
  s = val ++ rest /\ forallb notQuote val = true
  /\ (rest = [] \/ exists r, rest = quote :: r).
Proof.
  revert val rest. induction s as [| c s IH]; intros val rest H; cbn in H.
  - simplify_eq. auto.
  - destruct (Ascii.eqb_spec c quote) as [-> | Hne].
    + simplify_eq. cbn. eauto.
    + destruct (spanValue s) as [val' rest']. simplify_eq.
      destruct (IH _ _ eq_refl) as (-> & Hv & Hr).
      split; [done |]. split; [| done].
      cbn. rewrite Hv. unfold notQuote.
      by destruct (Ascii.eqb_spec c quote).
Qed.

Lemma spanValue_value val post :
  forallb notQuote val = true -> spanValue (val ++ quote :: post) = (val, quote :: post).
Proof.
  induction val as [| c val IH]; cbn.
  - intros _. by rewrite Ascii.eqb_refl.
  - intros H. apply andb_true_iff in H as [Hc Hv]. unfold notQuote in Hc.
    destruct (Ascii.eqb c quote); [done |]. by rewrite IH.
Qed.

Lemma matchHere_sound s val :
  matchHere s = Some val -> matchesName s val.
Proof.
  unfold matchHere. intros H.
  destruct (hasPrefixL nameLiteral s) eqn:Hp; [| done].
  apply hasPrefixL_app in Hp. change (length nameLiteral) with 6%nat in Hp.
  destruct (drop 6 s) as [| c r]; [done |].
  destruct (isSpace c) eqn:Hc; [| done].
  destruct (dropSpaces_app r) as (ws & Hr & Hws).
  destruct (dropSpaces r) as [| q r']; [done |].
  destruct (Ascii.eqb_spec q quote) as [-> | _]; [| done].
  destruct (spanValue r') as [val' rest] eqn:Hspan.
  apply spanValue_app in Hspan as (-> & Hval & Hrest).
  destruct val' as [| v0 val']; [done |].
  destruct rest as [| q' rest]; [done |]. simplify_eq.
  destruct Hrest as [| [r0 Hr0]]; [done |]. simplify_eq.
  exists [], (c :: ws), r0. cbn [app].
  split; [done |]. split; [done |].
  split; [cbn; by rewrite Hc, Hws |]. split; done.
Qed.

Lemma matchHere_complete ws val post :
  ws <> [] -> forallb isSpace ws = true ->
  val <> [] -> forallb notQuote val = true ->
  matchHere (nameLiteral ++ ws ++ quote :: val ++ quote :: post) = Some val.
Proof.
  intros Hws Hsp Hval Hnq. unfold matchHere.
  rewrite hasPrefixL_refl.
  change (drop 6 (nameLiteral ++ ?x)) with x.
  destruct ws as [| c ws]; [done |]. cbn in Hsp.
  apply andb_true_iff in Hsp as [Hc Hsp]. cbn [app]. rewrite Hc.
  rewrite dropSpaces_spaces by done. rewrite Ascii.eqb_refl.
  rewrite spanValue_value by done. by destruct val.
Qed.

Lemma findSubmatch_sound s val :
  findSubmatch s = Some val -> matchesName s val.
Proof.
  induction s as [| c s IH]; cbn [findSubmatch]; intros H.
  - by vm_compute in H.
  - destruct (matchHere (c :: s)) eqn:E.
    + simplify_eq. by apply matchHere_sound.
    + destruct (IH H) as (pre & ws & post & -> & Hrest).
      by exists (c :: pre), ws, post.
Qed.

Lemma findSubmatch_here s val :
  matchHere s = Some val -> findSubmatch s = Some val.
Proof. intros H. destruct s; cbn [findSubmatch]; by rewrite H. Qed.

Lemma findSubmatch_complete s val :
  matchesName s val -> is_Some (findSubmatch s).
Proof.
  intros (pre & ws & post & -> & Hws & Hsp & Hval & Hnq).
  induction pre as [| c pre IH].
  - exists val. apply findSubmatch_here. by apply matchHere_complete.
  - cbn [app findSubmatch]. destruct (matchHere _); [by eexists | exact IH].
Qed.

(** ** The loop *)

Lemma removeCompletedStep_lookup t k0 k :
  ongoing (fst (removeCompletedStep t k0)) !! k
  = if decide (k = k0) then ongoing t !! k ≫= keepRunning else ongoing t !! k.
Proof.
  unfold removeCompletedStep.
  destruct (ongoing t !! k0) as [v |] eqn:E.
  - unfold keepRunning.
    destruct (completed v) eqn:Ec; cbn [fst ongoing with_ongoing];
      destruct (decide (k = k0)) as [-> | Hne];
      rewrite ?lookup_delete_eq, ?lookup_delete_ne, ?E by done;
      cbn; by rewrite ?Ec.
  - cbn [fst]. destruct (decide (k = k0)) as [-> | Hne]; [by rewrite E | done].
Qed.

Lemma keepRunning_idem (o : option vertexInfo) :
  (o ≫= keepRunning) ≫= keepRunning = o ≫= keepRunning.
Proof.
  destruct o as [v |]; [| done]. cbn. unfold keepRunning.
  destruct (completed v) eqn:E; cbn; by rewrite ?E.
Qed.

Lemma removeCompletedSteps_lookup range t k :
  ongoing (fst (removeCompletedSteps range t)) !! k
  = if decide (k ∈ range) then ongoing t !! k ≫= keepRunning else ongoing t !! k.
Proof.
  unfold removeCompletedSteps. revert t.
  induction range as [| k0 range IH]; intros t; cbn [forEach].
  - by rewrite decide_False by apply not_elem_of_nil.
  - pose proof (removeCompletedStep_lookup t k0 k) as H0.
    destruct (removeCompletedStep t k0) as [t1 o1]. specialize (IH t1).
    destruct (forEach removeCompletedStep range t1) as [t2 o2].
    cbn [fst] in *. rewrite IH, H0.
    destruct (decide (k = k0)) as [-> | Hne].
    + rewrite (decide_True (P := k0 ∈ k0 :: range)) by by left.
      destruct (decide (k0 ∈ range)); [apply keepRunning_idem | done].
    + destruct (decide (k ∈ range)) as [Hin | Hout].
      * by rewrite decide_True by by right.
      * rewrite decide_False; [done |].
        intros [-> | Hin]%elem_of_cons; done.
Qed.

Lemma removeCompletedSteps_out range t o :
  NoDup range ->
  (forall k, k ∈ range -> ongoing t !! k = o !! k) ->
  snd (removeCompletedSteps range t) = flat_map (noticeAt o) range.
Proof.
  unfold removeCompletedSteps. intros Hnd. revert t.
  induction Hnd as [| k0 range Hk0 Hnd IH]; intros t Hsame; [done |].
  cbn [forEach flat_map].
  pose proof (removeCompletedStep_lookup t k0) as H0.
  assert (Ho : snd (removeCompletedStep t k0) = noticeAt o k0).
  { unfold removeCompletedStep, noticeAt. rewrite <- Hsame by by left.
    destruct (ongoing t !! k0) as [v |]; [| done]. by destruct (completed v). }
  destruct (removeCompletedStep t k0) as [t1 o1]. cbn [fst snd] in *.
  specialize (IH t1).
  destruct (forEach removeCompletedStep range t1) as [t2 o2]. cbn [snd] in *.
  rewrite Ho, IH; [done |].
  intros k Hin. rewrite H0, decide_False; [apply Hsame; by right |].
  intros ->. done.
Qed.


Lemma rangeOrder_elements {V} (m : gmap string V) :
  rangeOrder m (elements (dom m)).
Proof.
  split; [apply NoDup_elements |].
  intros k. by rewrite elem_of_elements, elem_of_dom.
Qed.

Lemma rangeOrder_singleton {V} (k : string) (v : V) :
  rangeOrder ({[ k := v ]} : gmap string V) [k].
Proof.
  split; [apply NoDup_singleton |].
  intros k'. rewrite list_elem_of_singleton. split.
  - intros ->. rewrite lookup_singleton_eq. by eexists.
  - intros [v' Hv']. apply lookup_singleton_Some in Hv'. by destruct Hv'.
Qed.

Lemma FindStringSubmatch_sound s n :
  nameRegex_FindStringSubmatch s = Some n ->
  matchesName (list_ascii_of_string s) (list_ascii_of_string n).
Proof.
  unfold nameRegex_FindStringSubmatch. intros H.
  destruct (findSubmatch (list_ascii_of_string s)) as [val |] eqn:E; [| done].
  cbn in H. simplify_eq. rewrite list_ascii_of_string_of_list_ascii.
  by apply findSubmatch_sound.
Qed.

Lemma FindStringSubmatch_complete s val :
  matchesName (list_ascii_of_string s) val ->
  is_Some (nameRegex_FindStringSubmatch s).
Proof.
  intros H. apply findSubmatch_complete in H as [val' H].
  unfold nameRegex_FindStringSubmatch. rewrite H. by eexists.
Qed.

(** C8: when the loop visits every registered key once,
    [removeCompletedSteps] leaves exactly the steps that are not completed;
    for each step it removes it prints the skip notice of that step, which is
    empty unless the name contains [remote-run test] and the step is cached,
    and then carries the group of [nameRegex] when the name matches and is
    the generic notice when it does not; the group is a non-empty text
    without double quotes that follows [--name] and white space between
    double quotes, and a name with such an occurrence always matches; a
    vertex descriptor that names a removed step registers it anew, from the
    descriptor alone. *)
Theorem removeCompletedSteps_prunes (range : list string) (t : trace) :
  rangeOrder (ongoing t) range ->
  (forall k, ongoing (fst (removeCompletedSteps range t)) !! k
             = ongoing t !! k ≫= keepRunning)
  /\ snd (removeCompletedSteps range t) = flat_map (noticeAt (ongoing t)) range
  /\ (forall v,
        skipNotice v
        = if Contains (name v) "remote-run test" && cached v then
            [match nameRegex_FindStringSubmatch (name v) with
             | Some n => Information "Skipping test container '%s', CACHED" [n]
             | None => Information "Skipping test container, CACHED" []
             end]
          else [])
  /\ (forall s n, nameRegex_FindStringSubmatch s = Some n ->
                  matchesName (list_ascii_of_string s) (list_ascii_of_string n))
  /\ (forall s val, matchesName (list_ascii_of_string s) val ->
                    is_Some (nameRegex_FindStringSubmatch s))
  /\ (forall k v rawVertex,
        ongoing t !! k = Some v -> completed v = true ->
        Encoded (Vertex_Digest rawVertex) = k -> noError rawVertex ->
        ongoing (fst (update (fst (removeCompletedSteps range t))
                        {| Vertexes := [rawVertex]; Statuses := []; Logs := [] |}))
          !! k
        = Some (latch rawVertex (freshVertex rawVertex))).
Proof.
  intros [Hnd Hcover].
  assert (Hlookup : forall k, ongoing (fst (removeCompletedSteps range t)) !! k
                              = ongoing t !! k ≫= keepRunning).
  { intros k. rewrite removeCompletedSteps_lookup.
    destruct (decide (k ∈ range)) as [Hin | Hout]; [done |].
    destruct (ongoing t !! k) eqn:E; [| done].
    exfalso. apply Hout, Hcover. by eexists. }
  split; [exact Hlookup |].
  split; [by apply removeCompletedSteps_out |].
  split.
  { intros v. unfold skipNotice.
    destruct (Contains (name v) "remote-run test" && cached v); [| done].
    by destruct (nameRegex_FindStringSubmatch (name v)). }
  split; [apply FindStringSubmatch_sound |].
  split; [apply FindStringSubmatch_complete |].
  intros k v rawVertex Hv Hc Hk Hok.
  unfold update. cbn [Vertexes Statuses Logs updateVertexes].
  rewrite (buildProofs.updateVertex_noError _ _ Hok).
  cbn [fold_left fst ongoing with_ongoing].
  unfold vertexOK, register. rewrite Hk, Hlookup, Hv.
  cbn. unfold keepRunning. rewrite Hc.
  by rewrite lookup_alter_eq, lookup_insert_eq.
Qed.


(** C8, at a trace that holds one completed, cached test container. *)
Lemma removeCompletedSteps_prunes_witness :
  (forall k, ongoing (fst (removeCompletedSteps ["v1"] examples.finishedTest)) !! k
             = ongoing examples.finishedTest !! k ≫= keepRunning)
  /\ snd (removeCompletedSteps ["v1"] examples.finishedTest)
     = flat_map (noticeAt (ongoing examples.finishedTest)) ["v1"].
Proof.
  pose proof (removeCompletedSteps_prunes ["v1"] examples.finishedTest
                (rangeOrder_singleton "v1" _)) as (Hkeep & Hout & _).
  split; [exact Hkeep | exact Hout].
Defined.

Example removeCompletedSteps_test_container :
  removeCompletedSteps ["v1"] examples.finishedTest
  = (newTrace, [Information "Skipping test container '%s', CACHED" ["unit"]]).
Proof. vm_compute. reflexivity. Qed.

End pruneProofs.

(** * Properties of the destroy command *)

Module pipelineProofs.
Import pipeline supervise.

(** C5 (as amended): when the remote [Destroy] call fails with an error
    that [IsNotFound] recognises, [ExecuteDestroyPipeline] does not enter the
    wait phase and returns no error, whether or not the caller asked to
    wait: the not-found error is logged by [destroyPipeline] and dropped. *)
Theorem destroy_not_found_is_success (IsNotFound : error -> bool) (w : world)
    (opts : DestroyOptions) (name : string) (resp : option GitDeployResponse)
    (e : error) :
  resolveName w opts = inr name ->
  Destroy w name (DestroyVolumes opts) = callFirst resp (Some e) ->
  IsNotFound (wrapError "failed to destroy repository '%s': %w" [name] e) = true ->
  let err := wrapError "failed to destroy repository '%s': %w" [name] e in
  let out :=
    [Spinner ("Destroying repository '" +:+ name +:+ "'..."); StartSpinner;
     InfofErr "exit signal received due to error: %s" err; StopSpinner;
     Success (if Wait opts then "Repository '%s' successfully destroyed"
              else "Repository '%s' scheduled for destruction") [name]] in
  ExecuteDestroyPipeline IsNotFound w opts = (None, out)
  /\ enteredWait name out = false.
Proof.
  intros Hname Hdestroy Hnf. cbv zeta.
  split.
  - unfold ExecuteDestroyPipeline, destroyPipeline.
    rewrite Hname, Hdestroy, Hnf. cbn [negb].
    by destruct (Wait opts).
  - reflexivity.
Qed.

(** C5 as amended, at a repository that is already gone and a caller that
    waits. *)
Lemma destroy_not_found_is_success_witness :
  ExecuteDestroyPipeline examples.notFoundText examples.goneWorld
    (examples.destroyOpts true)
  = (None,
     [Spinner "Destroying repository 'app'..."; StartSpinner;
      InfofErr "exit signal received due to error: %s"
        (wrapError "failed to destroy repository '%s': %w" ["app"]
           (errorString "pipeline not found"));
      StopSpinner;
      Success "Repository '%s' successfully destroyed" ["app"]]).
Proof.
  refine (proj1 (destroy_not_found_is_success examples.notFoundText
                   examples.goneWorld (examples.destroyOpts true) "app" None
                   (errorString "pipeline not found") _ _ _)).
  - reflexivity.
  - reflexivity.
  - vm_compute. reflexivity.
Defined.

(** C5 fails as stated: the caller that does not wait gets no error back
    when the repository is not found. *)
Lemma destroy_not_found_returns_nil :
  examples.notFoundText
    (wrapError "failed to destroy repository '%s': %w" ["app"]
       (errorString "pipeline not found")) = true
  /\ ExecuteDestroyPipeline examples.notFoundText examples.goneWorld
       (examples.destroyOpts false)
     = (None,
        [Spinner "Destroying repository 'app'..."; StartSpinner;
         InfofErr "exit signal received due to error: %s"
           (wrapError "failed to destroy repository '%s': %w" ["app"]
              (errorString "pipeline not found"));
         StopSpinner;
         Success "Repository '%s' scheduled for destruction" ["app"]]).
Proof. split; vm_compute; reflexivity. Qed.

(** ** The goroutines of [waitUntilDestroyed] *)

Lemma invariant_init : invariant init.
Proof. unfold invariant. cbn. repeat split; auto. Qed.

Ltac step_goroutine :=
  repeat (case_match; simplify_eq; cbn in * );
  repeat split; try discriminate; try congruence; try lia;
  intuition (try discriminate; try congruence; try lia).

Lemma invariant_step a s : invariant s -> invariant (default s (step a s)).
Proof.
  destruct s as [wg0 m st wa cl sp sc eb ec ca o].
  unfold invariant, streamShare, waiterShare, progressOf.
  intros (Hwg & Hsc & Hec & Hcl & Hst & Hwa); cbn in *; subst sc ec.
  destruct a; cbn; step_goroutine.
Qed.

Lemma invariant_exec sched s : invariant s -> invariant (exec sched s).
Proof.
  revert s. induction sched as [| a sched IH]; intros s H; [exact H |].
  cbn [exec]. apply IH. by apply invariant_step.
Qed.

Lemma finished_step a s :
  invariant s -> bothFinished s = true -> closer s = closerWaiting ->
  bothFinished (default s (step a s)) = true
  /\ closer (default s (step a s)) = closerWaiting
  /\ wg (default s (step a s)) = 1.
Proof.
  destruct s as [wg0 m st wa cl sp sc eb ec ca o].
  unfold invariant, streamShare, waiterShare, bothFinished, progressOf.
  intros (Hwg & Hsc & Hec & Hcl & Hst & Hwa) Hb Hc; cbn in *; subst sc ec cl.
  destruct st; try discriminate. destruct wa; try discriminate.
  destruct a; cbn; step_goroutine.
Qed.

Lemma finished_exec sched s :
  invariant s -> bothFinished s = true -> closer s = closerWaiting -> wg s = 1 ->
  bothFinished (exec sched s) = true
  /\ closer (exec sched s) = closerWaiting
  /\ wg (exec sched s) = 1.
Proof.
  revert s. induction sched as [| a sched IH]; intros s Hi Hb Hc Hw; [done |].
  cbn [exec]. destruct (finished_step a s Hi Hb Hc) as (Hb' & Hc' & Hw').
  apply IH; [by apply invariant_step | done..].
Qed.

(** C9 (what the code does): whatever the schedule, the supervisory
    goroutine never gets past [wg.Wait()], so neither channel is ever closed;
    in particular, after an execution in which both background activities
    have finished the counter stays at one, for the second [wg.Add(1)] that
    no [wg.Done()] matches, and no continuation closes a channel. *)
Theorem waitUntilDestroyed_never_closes (sched : list action) :
  (stop_closes (exec sched init) = 0%nat /\ exit_closes (exec sched init) = 0%nat)
  /\ let s := exec (examples.bothFinish ++ sched) init in
     bothFinished s = true /\ wg s = 1 /\ closer s = closerWaiting
     /\ stop_closes s = 0%nat /\ exit_closes s = 0%nat.
Proof.
  split.
  - destruct (invariant_exec sched init invariant_init) as (_ & Hs & He & _).
    by split.
  - cbn zeta.
    assert (Happ : forall l1 l2 s, exec (l1 ++ l2) s = exec l2 (exec l1 s)).
    { induction l1 as [| a l1 IH]; intros l2 s; [done | apply IH]. }
    rewrite Happ.
    pose proof (invariant_exec examples.bothFinish init invariant_init) as Hi.
    destruct (finished_exec sched _ Hi) as (Hb & Hc & Hw); try reflexivity.
    destruct (invariant_exec sched _ Hi) as (_ & Hs & He & _).
    by repeat split.
Qed.

End pipelineProofs.

(** * Further properties of [update] *)

Module updateProofs.
Import build observe behaviour.

(** ** Splitting a log payload *)

Lemma splitLines_cons s : exists l ls, splitLines s = l :: ls.
Proof.
  destruct s as [| c s]; cbn; [by eexists _, _ |].
  destruct (Ascii.eqb c newline); [by eexists _, _ |].
  destruct (splitLines s); by eexists _, _.
Qed.

Lemma joinLines_cons l l' ls :
  joinLines (l :: l' :: ls) = l +:+ String newline (joinLines (l' :: ls)).
Proof. reflexivity. Qed.

(** X1: splitting a log payload at newlines loses nothing: joining the
    pieces with newlines gives the payload back, there is one piece more
    than there are newlines (so the empty payload gives one empty line), and
    no piece contains a newline. *)
Theorem splitLines_joinLines (s : string) :
  joinLines (splitLines s) = s
  /\ length (splitLines s) = S (countNewlines s)
  /\ Forall (fun l => hasNewline l = false) (splitLines s).
Proof.
  induction s as [| c s (IHj & IHl & IHn)]; [by repeat constructor |].
  cbn [splitLines countNewlines].
  destruct (splitLines_cons s) as (l & ls & E). rewrite E in *.
  destruct (Ascii.eqb c newline) eqn:Ec.
  - apply Ascii.eqb_eq in Ec as ->.
    split; [by rewrite joinLines_cons, IHj |].
    split; [cbn [length] in *; lia | by constructor].
  - split.
    + destruct ls as [| l' ls]; [cbn in *; by rewrite IHj |].
      rewrite joinLines_cons in *. by rewrite <- IHj.
    + split; [cbn [length] in *; lia |].
      inversion IHn as [| ? ? Hl Hls]; subst. constructor; [| done].
      cbn [hasNewline]. by rewrite Ec, Hl.
Qed.

(** ** Which steps a batch registers *)

Lemma updateVertexes_None vs o :
  snd (updateVertexes vs o) = None -> Forall noError vs.
Proof.
  revert o. induction vs as [| rawVertex vs IH]; intros o H; [constructor |].
  cbn [updateVertexes] in H. unfold updateVertex in H.
  destruct (String.eqb_spec (Vertex_Error rawVertex) "") as [E | E];
    cbn [negb] in H; [| done].
  constructor; [exact E | by eapply IH].
Qed.

Lemma is_Some_register o rawVertex k :
  is_Some (register o rawVertex !! k)
  <-> is_Some (o !! k) \/ k = Encoded (Vertex_Digest rawVertex).
Proof.
  unfold register.
  destruct (o !! Encoded (Vertex_Digest rawVertex)) eqn:E.
  - split; [by left |]. intros [H | ->]; [done | by rewrite E].
  - rewrite lookup_insert_is_Some'. split; intros [H | H]; auto.
Qed.

Lemma is_Some_updateVertex o rawVertex k :
  is_Some (fst (updateVertex o rawVertex) !! k)
  <-> is_Some (o !! k) \/ k = Encoded (Vertex_Digest rawVertex).
Proof.
  unfold updateVertex. destruct (negb _); cbn [fst];
    rewrite ?lookup_alter_is_Some; apply is_Some_register.
Qed.

Lemma is_Some_updateVertexes vs o k :
  is_Some (fst (updateVertexes vs o) !! k) ->
  is_Some (o !! k) \/ k ∈ map (fun rv => Encoded (Vertex_Digest rv)) vs.
Proof.
  revert o. induction vs as [| rawVertex vs IH]; intros o H; [by left |].
  cbn [updateVertexes] in H.
  pose proof (is_Some_updateVertex o rawVertex k) as Hv.
  destruct (updateVertex o rawVertex) as [o1 [e |]]; cbn [fst] in *.
  - apply Hv in H as [H | ->]; [by left | right; by left].
  - apply IH in H as [H | H]; [| right; by right].
    apply Hv in H as [H | ->]; [by left | right; by left].
Qed.

Lemma is_Some_vertexOK vs o k :
  is_Some (fold_left vertexOK vs o !! k)
  <-> is_Some (o !! k) \/ k ∈ map (fun rv => Encoded (Vertex_Digest rv)) vs.
Proof.
  revert o. induction vs as [| rawVertex vs IH]; intros o; cbn [fold_left map].
  - rewrite elem_of_nil. tauto.
  - rewrite IH, elem_of_cons. unfold vertexOK.
    rewrite lookup_alter_is_Some, is_Some_register. tauto.
Qed.

Lemma is_Some_updateStatuses sts o k :
  is_Some (fold_left updateStatus sts o !! k) <-> is_Some (o !! k).
Proof.
  revert o. induction sts as [| s sts IH]; intros o; [done |].
  cbn [fold_left]. rewrite IH. unfold updateStatus. apply lookup_alter_is_Some.
Qed.

Lemma is_Some_updateLogs ls o k :
  is_Some (fold_left updateLog ls o !! k) <-> is_Some (o !! k).
Proof.
  revert o. induction ls as [| l ls IH]; intros o; [done |].
  cbn [fold_left]. rewrite IH. unfold updateLog. apply lookup_alter_is_Some.
Qed.

(** X2: [update] never removes a step and registers steps only for vertex
    descriptors: statuses and logs that name an unknown step create nothing.
    A batch without vertex error leaves registered exactly the steps that
    were registered plus those its vertex descriptors name. *)
Theorem update_registers_vertexes_only (t : trace) (ss : SolveStatus) (k : string) :
  (is_Some (ongoing t !! k) -> is_Some (ongoing (fst (update t ss)) !! k))
  /\ (is_Some (ongoing (fst (update t ss)) !! k) ->
      is_Some (ongoing t !! k) \/ k ∈ vertexIds ss)
  /\ (snd (update t ss) = None -> k ∈ vertexIds ss ->
      is_Some (ongoing (fst (update t ss)) !! k)).
Proof.
  unfold update, vertexIds.
  pose proof (is_Some_updateVertexes (Vertexes ss) (ongoing t) k) as Hsub.
  pose proof (buildProofs.holdsAt_True_updateVertexes k (Vertexes ss) (ongoing t))
    as Hkeep.
  pose proof (updateVertexes_None (Vertexes ss) (ongoing t)) as Hok.
  pose proof (buildProofs.updateVertexes_noError (Vertexes ss) (ongoing t)) as Hfold.
  destruct (updateVertexes (Vertexes ss) (ongoing t)) as [o1 [e |]];
    cbn [fst snd ongoing with_ongoing] in *.
  - split; [exact Hkeep |]. split; [exact Hsub | done].
  - rewrite is_Some_updateLogs, is_Some_updateStatuses.
    split; [exact Hkeep |]. split; [exact Hsub |].
    intros _ Hin. specialize (Hfold (Hok eq_refl)). simplify_eq.
    apply is_Some_vertexOK. by right.
Qed.

Lemma update_registers_vertexes_only_witness :
  is_Some (ongoing (fst (update newTrace examples.testBatch)) !! "v1").
Proof.
  apply (proj2 (proj2 (update_registers_vertexes_only newTrace examples.testBatch "v1"))).
  - reflexivity.
  - vm_compute. by left.
Defined.




(** ** The log loop *)

Lemma logs_vertexOK vs o k :
  is_Some (o !! k) \/ k ∈ map (fun rv => Encoded (Vertex_Digest rv)) vs ->
  holdsAt (fun x => logs x = default [] (logs <$> o !! k)) k (fold_left vertexOK vs o).
Proof.
  revert o. induction vs as [| rawVertex vs IH]; intros o H; cbn [fold_left map] in *.
  - destruct H as [[v Hv] | H]; [| by apply elem_of_nil in H].
    exists v. by rewrite Hv.
  - assert (Hstep : holdsAt (fun x => logs x = default [] (logs <$> o !! k)) k
                      (vertexOK o rawVertex)
                    \/ (vertexOK o rawVertex !! k = None /\ o !! k = None
                        /\ k ∈ map (fun rv => Encoded (Vertex_Digest rv)) vs)).
    { unfold vertexOK, register.
      destruct (decide (k = Encoded (Vertex_Digest rawVertex))) as [-> | Hne].
      - left. destruct (o !! Encoded (Vertex_Digest rawVertex)) as [v |] eqn:E.
        + exists (latch rawVertex v). rewrite lookup_alter_eq, E. split; [done |].
          unfold latch. by destruct (Vertex_Cached rawVertex), (isSome _).
        + exists (latch rawVertex (freshVertex rawVertex)).
          rewrite lookup_alter_eq, lookup_insert_eq. split; [done |].
          unfold latch. by destruct (Vertex_Cached rawVertex), (isSome _).
      - assert (Hl : forall o', alter (latch rawVertex)
                                  (Encoded (Vertex_Digest rawVertex)) o' !! k = o' !! k)
          by (intros o'; by rewrite lookup_alter_ne).
        destruct (o !! k) as [v |] eqn:Ek.
        + left. exists v. rewrite Hl. split; [| done].
          destruct (o !! Encoded (Vertex_Digest rawVertex)); [done |].
          by rewrite lookup_insert_ne.
        + right. rewrite Hl. split; [| split; [done |]].
          * destruct (o !! Encoded (Vertex_Digest rawVertex)); [done |].
            by rewrite lookup_insert_ne.
          * destruct H as [[? ?] | H]; [done |].
            apply elem_of_cons in H as [-> | H]; done. }
    destruct Hstep as [(v1 & Hv1 & Hl1) | (Hn1 & Hn & Hin)].
    + destruct (IH (vertexOK o rawVertex)) as (v2 & Hv2 & Hl2);
        [left; by eexists |].
      exists v2. split; [done |]. rewrite Hl2, Hv1. exact Hl1.
    + destruct (IH (vertexOK o rawVertex)) as (v2 & Hv2 & Hl2); [by right |].
      exists v2. split; [done |]. by rewrite Hl2, Hn1, Hn.
Qed.

Lemma logs_updateLogs ls o k v :
  o !! k = Some v ->
  holdsAt (fun x => logs x = logs v ++ logLinesFor k ls) k (fold_left updateLog ls o).
Proof.
  revert o v. induction ls as [| l ls IH]; intros o v Hv; cbn [fold_left logLinesFor flat_map].
  - exists v. by rewrite app_nil_r.
  - unfold updateLog at 2.
    destruct (String.eqb_spec (Encoded (VertexLog_Vertex l)) k) as [E | E].
    + destruct (IH (alter (appendLogs l) (Encoded (VertexLog_Vertex l)) o)
                  (appendLogs l v)) as (v' & Hv' & Hl').
      { by rewrite E, lookup_alter_eq, Hv. }
      exists v'. split; [done |]. rewrite Hl'. cbn. by rewrite app_assoc.
    + destruct (IH (alter (appendLogs l) (Encoded (VertexLog_Vertex l)) o) v)
        as (v' & Hv' & Hl').
      { by rewrite lookup_alter_ne. }
      exists v'. split; done.
Qed.

(** X4: in a batch without vertex error every step that is registered or
    named by a vertex descriptor ends with the lines it had buffered (none
    for a new step) followed by the lines of the batch's log chunks for it,
    chunk after chunk in the order of the batch; vertex descriptors and
    statuses leave the buffer alone. *)
Theorem update_appends_logs (t : trace) (ss : SolveStatus) (k : string) :
  snd (update t ss) = None ->
  is_Some (ongoing t !! k) \/ k ∈ vertexIds ss ->
  exists v', ongoing (fst (update t ss)) !! k = Some v'
    /\ logs v' = default [] (logs <$> ongoing t !! k) ++ logLinesFor k (Logs ss).
Proof.
  intros Hok Hreg. unfold update in *.
  pose proof (updateVertexes_None (Vertexes ss) (ongoing t)) as Hne.
  pose proof (buildProofs.updateVertexes_noError (Vertexes ss) (ongoing t)) as Hfold.
  destruct (updateVertexes (Vertexes ss) (ongoing t)) as [o1 [e |]]; [done |].
  specialize (Hfold (Hne eq_refl)). simplify_eq.
  cbn [fst ongoing with_ongoing].
  destruct (logs_vertexOK (Vertexes ss) (ongoing t) k Hreg) as (v1 & Hv1 & Hl1).
  destruct (buildProofs.holdsAt_updateStatuses (fun x => logs x = logs v1) k
              (Statuses ss) (fold_left vertexOK (Vertexes ss) (ongoing t)))
    as (v2 & Hv2 & Hl2); [by intros | by exists v1 |].
  destruct (logs_updateLogs (Logs ss) _ k v2 Hv2) as (v3 & Hv3 & Hl3).
  exists v3. split; [exact Hv3 |]. by rewrite Hl3, Hl2, Hl1.
Qed.

Lemma update_appends_logs_witness :
  exists v',
    ongoing (fst (update newTrace examples.testBatch)) !! "v1" = Some v'
    /\ logs v' = [] ++ [examples.jsonLine "info" "unit" "ok"].
Proof.
  apply (update_appends_logs newTrace examples.testBatch "v1").
  - reflexivity.
  - right. vm_compute. by left.
Defined.

End updateProofs.

(** * Further properties of [display], of the pruning and of the loop *)

Module loopProofs.
Import build observe behaviour.

Lemma forEach_fixed {A} (f : trace -> A -> trace * list logCall)
    (g : A -> list logCall) (xs : list A) (t : trace) :
  (forall x, x ∈ xs -> f t x = (t, g x)) -> forEach f xs t = (t, flat_map g xs).
Proof.
  induction xs as [| x xs IH]; intros H; [done |].
  cbn [forEach flat_map]. rewrite H by by left.
  rewrite IH; [done |]. intros y Hy. apply H. by right.
Qed.

Lemma forEach_inv_in {A} (I : trace -> Prop) (f : trace -> A -> trace * list logCall)
    (xs : list A) (t : trace) :
  (forall t' x, x ∈ xs -> I t' -> I (fst (f t' x))) ->
  I t -> I (fst (forEach f xs t)).
Proof.
  revert t. induction xs as [| x xs IH]; intros t Hf Ht; [exact Ht |].
  cbn [forEach]. pose proof (Hf t x (list_elem_of_here _ _) Ht) as H1.
  destruct (f t x) as [t1 o1].
  assert (H2 : I (fst (forEach f xs t1))).
  { apply IH; [| exact H1]. intros t' y Hy. apply Hf. by right. }
  destruct (forEach f xs t1) as [t2 o2]. exact H2.
Qed.

Lemma hasCommandLogs_false v : hasCommandLogs v = false -> logs v = [].
Proof. unfold hasCommandLogs. by destruct (logs v). Qed.

Lemma set_logs_nil v : logs v = [] -> set_logs [] v = v.
Proof. destruct v. cbn. by intros ->. Qed.

Section Display.

Context (unmarshal : string -> option JSONLogFormat).

(** ** The registry after [display] *)

Lemma displayVertex_lookup progress t k0 k :
  ongoing (fst (displayVertex unmarshal progress t k0)) !! k
  = if decide (k = k0) then set_logs [] <$> ongoing t !! k else ongoing t !! k.
Proof.
  unfold displayVertex.
  destruct (ongoing t !! k0) as [v |] eqn:Ev.
  - destruct (displayProofs.displayContext_frame t v) as (Ho & _).
    destruct (displayContext t v) as [t1 o1]. cbn [fst] in Ho.
    destruct (hasCommandLogs v) eqn:Eh.
    + destruct (displayProofs.displayLogs_frame unmarshal progress (logs v) t1)
        as [Ho2 _].
      destruct (forEach (displayLog unmarshal progress) (logs v) t1) as [t2 o2].
      cbn [fst ongoing with_ongoing] in *.
      destruct (decide (k = k0)) as [-> | Hne].
      * by rewrite lookup_insert_eq, Ev.
      * rewrite lookup_insert_ne by done. by rewrite Ho2, Ho.
    + cbn [fst]. rewrite Ho.
      destruct (decide (k = k0)) as [-> | Hne]; [| done].
      rewrite Ev. cbn. by rewrite set_logs_nil by by apply hasCommandLogs_false.
  - cbn [fst]. destruct (decide (k = k0)) as [-> | Hne]; [by rewrite Ev | done].
Qed.

(** X5: [display] changes nothing in the registry but the buffered lines:
    every step it visits ends with an empty buffer and all its other fields
    as they were, no step is added or removed, and a step it does not visit
    is untouched. *)
Theorem display_drains_logs (range : list string) (progress : string)
    (t : trace) (k : string) :
  ongoing (fst (display unmarshal range progress t)) !! k
  = if decide (k ∈ range) then set_logs [] <$> ongoing t !! k else ongoing t !! k.
Proof.
  unfold display. revert t.
  induction range as [| k0 range IH]; intros t; cbn [forEach].
  - by rewrite decide_False by apply not_elem_of_nil.
  - pose proof (displayVertex_lookup progress t k0 k) as H0.
    destruct (displayVertex unmarshal progress t k0) as [t1 o1].
    specialize (IH t1).
    destruct (forEach (displayVertex unmarshal progress) range t1) as [t2 o2].
    cbn [fst] in *. rewrite IH, H0.
    destruct (decide (k = k0)) as [-> | Hne].
    + rewrite (decide_True (P := k0 ∈ k0 :: range)) by by left.
      destruct (decide (k0 ∈ range)); [| done].
      by destruct (ongoing t !! k0).
    + destruct (decide (k ∈ range)) as [Hin | Hout].
      * by rewrite decide_True by by right.
      * rewrite decide_False; [done |].
        intros [-> | Hin]%elem_of_cons; done.
Qed.


Lemma display_largeContextAt range progress t k :
  largeContextAt (fst (display unmarshal range progress t)) k = largeContextAt t k.
Proof.
  unfold largeContextAt. rewrite display_drains_logs.
  destruct (decide (k ∈ range)); [| done]. by destruct (ongoing t !! k).
Qed.

(** A trace on which [display] has nothing to report but context sizes. *)
Lemma displayVertex_quiet progress t k :
  (forall k v, ongoing t !! k = Some v -> logs v = []) ->
  (showCtxAdvice t = true -> forall k, largeContextAt t k = false) ->
  displayVertex unmarshal progress t k = (t, contextSpinner (ongoing t) k).
Proof.
  intros Hlogs Hlatch. unfold displayVertex, contextSpinner.
  destruct (ongoing t !! k) as [v |] eqn:Ev; [| done].
  assert (Hh : hasCommandLogs v = false)
    by (unfold hasCommandLogs; by rewrite (Hlogs k v Ev)).
  assert (Hl : showCtxAdvice t
               && (largeContextThreshold <? currentTransferedContext v)
               && isTransferringContext (name v) = false).
  { destruct (showCtxAdvice t) eqn:Es; [| done].
    specialize (Hlatch eq_refl k). unfold largeContextAt in Hlatch.
    rewrite Ev in Hlatch. cbn. by rewrite andb_comm. }
  unfold displayContext. rewrite Hh.
  destruct (isTransferringContext (name v)); [| done].
  rewrite andb_true_r in Hl. rewrite Hl. cbn [andb].
  by destruct (negb (currentTransferedContext v =? 0)).
Qed.

(** X6: a second [display] right after one that visited every registered
    step changes nothing in the trace and prints only the progress of the
    context transfers: the lines were drained and the advisory, if it was
    due, has been given. *)
Theorem display_twice (range range' : list string) (progress progress' : string)
    (t : trace) :
  rangeOrder (ongoing t) range ->
  let t1 := fst (display unmarshal range progress t) in
  display unmarshal range' progress' t1
  = (t1, flat_map (contextSpinner (ongoing t1)) range').
Proof.
  intros [_ Hcover] t1. unfold display at 1.
  apply forEach_fixed. intros k _. apply displayVertex_quiet.
  - intros k' v Hv. unfold t1 in Hv. rewrite display_drains_logs in Hv.
    destruct (decide (k' ∈ range)) as [Hin | Hout].
    + destruct (ongoing t !! k') as [v0 |]; [| done]. cbn in Hv. by simplify_eq.
    + exfalso. apply Hout, Hcover. by eexists.
  - intros Hs k'. unfold t1 in *. rewrite display_largeContextAt.
    rewrite displayProofs.display_latch in Hs.
    apply andb_true_iff in Hs as [_ Hex]. apply negb_true_iff in Hex.
    destruct (decide (k' ∈ range)) as [Hin | Hout].
    + destruct (largeContextAt t k') eqn:E; [| done].
      assert (existsb (largeContextAt t) range = true); [| congruence].
      apply existsb_exists. exists k'. split; [| done].
      by apply list_elem_of_In.
    + unfold largeContextAt. destruct (ongoing t !! k') eqn:E; [| done].
      exfalso. apply Hout, Hcover. by eexists.
Qed.

(** ** Where the terminal error comes from *)

Lemma displayLog_err_same progress t log :
  recordsFailure unmarshal log = false ->
  err (fst (displayLog unmarshal progress t log)) = err t.
Proof.
  unfold recordsFailure, displayLog, displayStage.
  destruct (String.eqb log ""); [done |]. cbn [negb andb].
  destruct (unmarshal log) as [text |]; [| done].
  destruct (String.eqb (Stage text) ""); [done |].
  destruct (String.eqb (Stage text) "done"); [done |].
  destruct (String.eqb (Stage text) "Load manifest"); [done |].
  destruct (String.eqb (Level text) "error"); [done |].
  intros _. by destruct (stages t !! Stage text).
Qed.

(** X7: [display] leaves the terminal error of the trace as it is unless one
    of the lines buffered for a step it visits is an error-level record of
    an ordinary stage: lines that are empty or do not decode, records of
    other levels, and error-level records of the stages [done] and
    [Load manifest] never set it. *)
Theorem display_err_only_from_failures (range : list string) (progress : string)
    (t : trace) :
  (forall k v log, k ∈ range -> ongoing t !! k = Some v -> log ∈ logs v ->
                   recordsFailure unmarshal log = false) ->
  err (fst (display unmarshal range progress t)) = err t.
Proof.
  intros Hquiet. unfold display.
  set (I := fun t' : trace =>
              err t' = err t
              /\ forall k v', ongoing t' !! k = Some v' ->
                   exists v, ongoing t !! k = Some v
                             /\ forall log, log ∈ logs v' -> log ∈ logs v).
  assert (HI : I (fst (forEach (displayVertex unmarshal progress) range t))).
  { apply forEach_inv_in; [| split; [done | by eauto]].
    intros t' k Hk [He Hlogs]. unfold displayVertex.
    destruct (ongoing t' !! k) as [v' |] eqn:Ev; [| by split].
    destruct (displayProofs.displayContext_frame t' v') as (Ho & _ & He1).
    destruct (displayContext t' v') as [t1 o1]. cbn [fst] in *.
    destruct (hasCommandLogs v'); cbn [fst]; [| split; [congruence | by rewrite Ho]].
    destruct (Hlogs k v' Ev) as (v & Hv & Hsub).
    assert (He2 : err (fst (forEach (displayLog unmarshal progress) (logs v') t1))
                  = err t).
    { apply (forEach_inv_in (fun t'' => err t'' = err t)); [| congruence].
      intros t'' log Hlog <-. apply displayLog_err_same.
      by apply (Hquiet k v log Hk Hv), Hsub. }
    destruct (displayProofs.displayLogs_frame unmarshal progress (logs v') t1)
      as [Ho2 _].
    destruct (forEach (displayLog unmarshal progress) (logs v') t1) as [t2 o2].
    cbn [fst err ongoing with_ongoing] in *. split; [exact He2 |].
    intros k' v'' Hv''. cbn [fst ongoing with_ongoing] in Hv''.
    destruct (decide (k = k')) as [<- | Hne].
    - rewrite lookup_insert_eq in Hv''. simplify_eq.
      exists v. split; [done |]. intros log Hlog. by apply elem_of_nil in Hlog.
    - rewrite lookup_insert_ne in Hv'' by done. apply Hlogs. congruence. }
  apply HI.
Qed.

End Display.


Lemma display_twice_witness :
  display unmarshalFlat ["v1"] DestroyOutputModeOnBuild
    (fst (display unmarshalFlat ["v1"] DeployOutputModeOnBuild examples.twoFailures))
  = (fst (display unmarshalFlat ["v1"] DeployOutputModeOnBuild examples.twoFailures),
     flat_map
       (contextSpinner
          (ongoing (fst (display unmarshalFlat ["v1"] DeployOutputModeOnBuild
                           examples.twoFailures))))
       ["v1"]).
Proof.
  apply (display_twice unmarshalFlat ["v1"] ["v1"] DeployOutputModeOnBuild
           DestroyOutputModeOnBuild examples.twoFailures).
  apply pruneProofs.rangeOrder_singleton.
Defined.

Lemma display_err_only_from_failures_witness :
  err (fst (display unmarshalFlat ["v1"] DeployOutputModeOnBuild examples.doneLine))
  = err examples.doneLine.
Proof.
  apply (display_err_only_from_failures unmarshalFlat ["v1"]
           DeployOutputModeOnBuild examples.doneLine).
  intros k v log Hk Hv Hlog.
  apply list_elem_of_singleton in Hk as ->.
  vm_compute in Hv. simplify_eq.
  apply list_elem_of_singleton in Hlog as ->.
  vm_compute. reflexivity.
Defined.

(** ** One cycle of the consumer loop *)

(** X8: a batch that [update] accepts is followed by [display] and
    [removeCompletedSteps] before the loop goes on: the loop continues on
    the trace that the two calls leave, and what they print comes first, in
    this order.  The registry of that trace is the one [update] left, with
    every buffer drained and every completed step removed: no step in it is
    completed and none has lines buffered. *)
Theorem consume_cycle (unmarshal : string -> option JSONLogFormat)
    (outputMode : string) (ss : SolveStatus) (rangeDisplay rangeRemove : list string)
    (rest : list selected) (t : trace) :
  snd (update t ss) = None ->
  rangeOrder (ongoing (fst (update t ss))) rangeDisplay ->
  rangeOrder (ongoing (fst (update t ss))) rangeRemove ->
  let shown := display unmarshal rangeDisplay outputMode (fst (update t ss)) in
  let pruned := removeCompletedSteps rangeRemove (fst shown) in
  consume unmarshal outputMode (received ss rangeDisplay rangeRemove :: rest) t
  = (let '(t', r, o) := consume unmarshal outputMode rest (fst pruned) in
     (t', r, snd shown ++ snd pruned ++ o))
  /\ (forall k, ongoing (fst pruned) !! k
                = (set_logs [] <$> ongoing (fst (update t ss)) !! k) ≫= keepRunning)
  /\ (forall k v, ongoing (fst pruned) !! k = Some v ->
                  completed v = false /\ logs v = []).
Proof.
  intros Hok [_ Hd] [_ Hr]. cbn zeta. cbn [consume].
  destruct (update t ss) as [t1 [e |]]; [done |]. cbn [fst] in *.
  pose proof (display_drains_logs unmarshal rangeDisplay outputMode t1) as H2.
  destruct (display unmarshal rangeDisplay outputMode t1) as [t2 o2].
  cbn [fst snd] in *.
  pose proof (pruneProofs.removeCompletedSteps_lookup rangeRemove t2) as H3.
  destruct (removeCompletedSteps rangeRemove t2) as [t3 o3]. cbn [fst snd] in *.
  assert (Hlookup : forall k, ongoing t3 !! k
                              = (set_logs [] <$> ongoing t1 !! k) ≫= keepRunning).
  { intros k. rewrite H3, H2.
    assert (E : (if decide (k ∈ rangeDisplay)
                 then set_logs [] <$> ongoing t1 !! k else ongoing t1 !! k)
                = set_logs [] <$> ongoing t1 !! k).
    { destruct (decide (k ∈ rangeDisplay)) as [| Hout]; [done |].
      destruct (ongoing t1 !! k) eqn:E; [| done].
      exfalso. apply Hout, Hd. by eexists. }
    rewrite E. destruct (decide (k ∈ rangeRemove)) as [| Hout]; [done |].
    destruct (ongoing t1 !! k) eqn:E1; [| done].
    exfalso. apply Hout, Hr. by eexists. }
  split; [done |].
  split; [exact Hlookup |]. intros k v Hv. rewrite Hlookup in Hv.
  destruct (ongoing t1 !! k) as [v0 |]; [| done]. cbn in Hv.
  unfold keepRunning in Hv. cbn in Hv.
  destruct (completed v0) eqn:Ec; [done |]. by simplify_eq.
Qed.

Lemma consume_cycle_witness :
  consume unmarshalFlat TestOutputModeOnBuild
    [received examples.testBatch ["v1"] ["v1"]; chClosed] newTrace
  = (with_stages {[ "unit" := true ]} newTrace, Some None,
     [Spinner "Running tests..."; SetStage "unit"; Println "ok"; SetStage "";
      Information "Skipping test container '%s', CACHED" ["unit"];
      StopSpinner])
  /\ forall k v,
       ongoing (fst (removeCompletedSteps ["v1"]
                       (fst (display unmarshalFlat ["v1"] TestOutputModeOnBuild
                               (fst (update newTrace examples.testBatch))))))
         !! k = Some v ->
       completed v = false /\ logs v = [].
Proof.
  assert (E : ongoing (fst (update newTrace examples.testBatch))
              = {[ "v1" := {| name := examples.testName;
                              logs := [examples.jsonLine "info" "unit" "ok"];
                              currentTransferedContext := 0;
                              totalTransferedContext := 0;
                              completed := true; cached := true |} ]})
    by (vm_compute; reflexivity).
  destruct (consume_cycle unmarshalFlat TestOutputModeOnBuild examples.testBatch
              ["v1"] ["v1"] [chClosed] newTrace) as (Hrun & _ & Hclean).
  - reflexivity.
  - rewrite E. apply pruneProofs.rangeOrder_singleton.
  - rewrite E. apply pruneProofs.rangeOrder_singleton.
  - split; [| exact Hclean]. rewrite Hrun. vm_compute. reflexivity.
Defined.

Lemma flat_map_nil {A B} (l : list A) : flat_map (fun _ => @nil B) l = [].
Proof. by induction l. Qed.

(** X9: pruning is idempotent: after [removeCompletedSteps] has visited
    every registered step, a second call removes nothing and prints
    nothing, whatever keys it visits. *)
Theorem removeCompletedSteps_twice (range range' : list string) (t : trace) :
  rangeOrder (ongoing t) range ->
  removeCompletedSteps range' (fst (removeCompletedSteps range t))
  = (fst (removeCompletedSteps range t), []).
Proof.
  intros [_ Hcover]. unfold removeCompletedSteps at 1.
  rewrite <- (flat_map_nil range').
  apply forEach_fixed. intros k _. unfold removeCompletedStep.
  rewrite pruneProofs.removeCompletedSteps_lookup.
  destruct (decide (k ∈ range)) as [Hin | Hout].
  - destruct (ongoing t !! k) as [v |]; [| done]. cbn. unfold keepRunning.
    by destruct (completed v) eqn:E; [| rewrite E].
  - destruct (ongoing t !! k) eqn:E; [| done].
    exfalso. apply Hout, Hcover. by eexists.
Qed.

Lemma removeCompletedSteps_twice_witness :
  removeCompletedSteps ["v0"; "v1"]
    (fst (removeCompletedSteps ["v1"] examples.finishedTest))
  = (fst (removeCompletedSteps ["v1"] examples.finishedTest), []).
Proof.
  apply (removeCompletedSteps_twice ["v1"] ["v0"; "v1"] examples.finishedTest).
  apply pruneProofs.rangeOrder_singleton.
Defined.


(** ** What the loop returns *)

Section Origin.

Context (unmarshal : string -> option JSONLogFormat) (mode : string).

Lemma displayLog_fromDisplay t log :
  fromDisplay mode t -> fromDisplay mode (fst (displayLog unmarshal mode t log)).
Proof.
  unfold fromDisplay, displayLog, displayStage. intros H e.
  repeat (case_match; simplify_eq; cbn [fst snd err with_err with_stages]);
    try apply H.
  all: intros; simplify_eq; by eexists _, _.
Qed.

Lemma displayVertex_fromDisplay t k :
  fromDisplay mode t -> fromDisplay mode (fst (displayVertex unmarshal mode t k)).
Proof.
  intros H. unfold displayVertex.
  destruct (ongoing t !! k) as [v |]; [| exact H].
  destruct (displayProofs.displayContext_frame t v) as (_ & _ & He).
  assert (H1 : fromDisplay mode (fst (displayContext t v)))
    by (unfold fromDisplay; by rewrite He).
  destruct (displayContext t v) as [t1 o1]. cbn [fst] in H1.
  destruct (hasCommandLogs v); [| exact H1].
  pose proof (displayProofs.forEach_inv (fromDisplay mode) _
                (fun t' log => displayLog_fromDisplay t' log) (logs v) t1 H1) as H2.
  destruct (forEach (displayLog unmarshal mode) (logs v) t1) as [t2 o2].
  exact H2.
Qed.

Lemma consume_fromDisplay evs t e :
  fromDisplay mode t ->
  snd (fst (consume unmarshal mode evs t)) = Some (Some e) ->
  commandFailure mode e \/ ctxDone e ∈ evs.
Proof.
  revert t. induction evs as [| ev evs IH]; intros t Ht H; [done |].
  destruct ev as [e' | | ss rd rr |]; cbn [consume] in H.
  - cbn in H. simplify_eq. right. by left.
  - destruct (IH t Ht H) as [| Hin]; [by left | right; by right].
  - assert (Hu : fromDisplay mode (fst (update t ss))).
    { unfold fromDisplay.
      by destruct (displayProofs.update_frame t ss) as (-> & _). }
    destruct (update t ss) as [t1 [e1 |]]; cbn [fst] in Hu.
    + destruct (consume unmarshal mode evs t1) as [[t' r] o] eqn:E.
      cbn in H. specialize (IH t1 Hu). rewrite E in IH.
      destruct (IH H) as [| Hin]; [by left | right; by right].
    + assert (H2 : fromDisplay mode (fst (display unmarshal rd mode t1))).
      { apply (displayProofs.forEach_inv (fromDisplay mode)); [| exact Hu].
        intros t' k. apply displayVertex_fromDisplay. }
      destruct (display unmarshal rd mode t1) as [t2 o2]. cbn [fst] in H2.
      assert (H3 : fromDisplay mode (fst (removeCompletedSteps rr t2))).
      { apply (displayProofs.forEach_inv (fromDisplay mode)); [| exact H2].
        intros t' k Ht'. unfold fromDisplay.
        by destruct (displayProofs.removeCompletedStep_frame t' k) as (-> & _). }
      destruct (removeCompletedSteps rr t2) as [t3 o3]. cbn [fst] in H3.
      destruct (consume unmarshal mode evs t3) as [[t' r] o] eqn:E.
      cbn in H. specialize (IH t3 H3). rewrite E in IH.
      destruct (IH H) as [| Hin]; [by left | right; by right].
  - cbn in H. left. apply Ht. congruence.
Qed.

End Origin.

(** X10: an error that [deployDisplayer] returns is either the error of the
    context that was done or a command failure that [display] recorded
    from a log line, with one of the three output modes as its output; the
    error that [update] reports for a failing vertex is never returned. *)
Theorem deployDisplayer_error_origin (unmarshal : string -> option JSONLogFormat)
    (evs : list selected) (o : BuildOptions) (e : error) :
  fst (deployDisplayer unmarshal evs o) = Some (Some e) ->
  (exists stage msg mode,
     e = CommandErr stage (errorString msg) mode
     /\ mode = selectOutputMode o
     /\ mode ∈ [DeployOutputModeOnBuild; DestroyOutputModeOnBuild;
                TestOutputModeOnBuild])
  \/ ctxDone e ∈ evs.
Proof.
  unfold deployDisplayer. intros H.
  pose proof (consume_fromDisplay unmarshal (selectOutputMode o) evs newTrace e) as Hc.
  destruct (consume unmarshal (selectOutputMode o) evs newTrace) as [[t' r] out].
  cbn [fst snd] in *. subst r.
  destruct Hc as [(stage & msg & ->) | Hin]; [by intros e' | done | | by right].
  left. exists stage, msg, (selectOutputMode o). split; [done |]. split; [done |].
  unfold selectOutputMode.
  destruct (String.eqb_spec (OutputMode o) DeployOutputModeOnBuild);
    [apply list_elem_of_here |].
  destruct (String.eqb_spec (OutputMode o) DestroyOutputModeOnBuild);
    [apply list_elem_of_further, list_elem_of_here |].
  destruct (String.eqb_spec (OutputMode o) TestOutputModeOnBuild);
    [do 2 apply list_elem_of_further; apply list_elem_of_here |].
  apply list_elem_of_here.
Qed.

Lemma deployDisplayer_error_origin_witness :
  (exists stage msg mode,
     CommandErr "build" (errorString "boom") DeployOutputModeOnBuild
     = CommandErr stage (errorString msg) mode
     /\ mode = selectOutputMode {| OutputMode := "unknown" |}
     /\ mode ∈ [DeployOutputModeOnBuild; DestroyOutputModeOnBuild;
                TestOutputModeOnBuild])
  \/ ctxDone (CommandErr "build" (errorString "boom") DeployOutputModeOnBuild)
     ∈ [received failedDeploy ["v1"] ["v1"]; chClosed].
Proof.
  apply (deployDisplayer_error_origin unmarshalFlat
           [received failedDeploy ["v1"] ["v1"]; chClosed]
           {| OutputMode := "unknown" |}).
  vm_compute. reflexivity.
Defined.

(** X11: the ticker of the loop is a heartbeat only: dropping every tick
    from what the loop selects changes neither the trace, nor what is
    returned, nor what is printed. *)
Theorem consume_ignores_ticks (unmarshal : string -> option JSONLogFormat)
    (outputMode : string) (evs : list selected) (t : trace) :
  consume unmarshal outputMode (List.filter (fun ev => negb (isTick ev)) evs) t
  = consume unmarshal outputMode evs t.
Proof.
  revert t. induction evs as [| ev evs IH]; intros t; [done |].
  destruct ev as [e | | ss rd rr |]; cbn [List.filter isTick negb consume]; try done.
  destruct (update t ss) as [t1 [e1 |]].
  - by rewrite IH.
  - destruct (display unmarshal rd outputMode t1) as [t2 o2].
    destruct (removeCompletedSteps rr t2) as [t3 o3]. by rewrite IH.
Qed.

End loopProofs.

(** * The name of a context transfer *)

Module nameProofs.
Import build.

Lemma list_ascii_of_string_app (a b : string) :
  list_ascii_of_string (a +:+ b) = list_ascii_of_string a ++ list_ascii_of_string b.
Proof. induction a as [| c a IH]; simpl; [done | by rewrite IH]. Qed.

Lemma string_of_list_ascii_app (a b : list ascii) :
  string_of_list_ascii (a ++ b) = string_of_list_ascii a +:+ string_of_list_ascii b.
Proof. induction a as [| c a IH]; simpl; [done | by rewrite IH]. Qed.

Lemma containsL_iff (s sub : list ascii) :
  containsL s sub = true <-> exists a b, s = a ++ sub ++ b.
Proof.
  induction s as [| c s IH]; cbn [containsL].
  - rewrite orb_false_r. split.
    + intros H. apply pruneProofs.hasPrefixL_app in H. exists [], (drop (length sub) []).
      exact H.
    + intros (a & b & H). symmetry in H.
      apply app_eq_nil in H as [-> H]. apply app_eq_nil in H as [-> _]. done.
  - rewrite orb_true_iff, IH. split.
    + intros [H | (a & b & ->)].
      * apply pruneProofs.hasPrefixL_app in H. by exists [], (drop (length sub) (c :: s)).
      * by exists (c :: a), b.
    + intros (a & b & H). destruct a as [| c' a]; cbn in H.
      * left. rewrite H. apply pruneProofs.hasPrefixL_refl.
      * right. simplify_eq. by exists a, b.
Qed.

(** X12: a step counts as the transfer of the build context exactly when
    its name is [[internal]] followed, anywhere later, by [load build]: the
    marker never overlaps the prefix. *)
Theorem isTransferringContext_iff (name : string) :
  isTransferringContext name = true
  <-> exists a b, name = "[internal]" +:+ a +:+ "load build" +:+ b.
Proof.
  unfold isTransferringContext, HasPrefix, Contains. rewrite andb_true_iff.
  set (marker := list_ascii_of_string "load build").
  assert (Hskip : forall r,
            containsL (list_ascii_of_string "[internal]" ++ r) marker
            = containsL r marker).
  { intros r. unfold marker. cbn. reflexivity. }
  split.
  - intros [Hp Hc].
    apply pruneProofs.hasPrefixL_app in Hp.
    rewrite Hp, Hskip in Hc. apply containsL_iff in Hc as (a & b & Hr).
    exists (string_of_list_ascii a), (string_of_list_ascii b).
    rewrite <- (string_of_list_ascii_of_string name), Hp, Hr.
    rewrite !string_of_list_ascii_app. unfold marker.
    by rewrite !string_of_list_ascii_of_string.
  - intros (a & b & ->). rewrite !list_ascii_of_string_app.
    split; [apply pruneProofs.hasPrefixL_refl |].
    rewrite Hskip. apply containsL_iff. by eexists _, _.
Qed.

End nameProofs.

(** * Further properties of the destroy command *)

Module destroyProofs.
Import pipeline supervise history.


(** What [ExecuteDestroyPipeline] returns, read off its branches. *)
Lemma ExecuteDestroyPipeline_returns (IsNotFound : error -> bool) (w : world)
    (opts : DestroyOptions) :
  fst (ExecuteDestroyPipeline IsNotFound w opts)
  = match resolveName w opts with
    | inl e => Some e
    | inr name =>
        match Destroy w name (DestroyVolumes opts) with
        | callFirst _ (Some e0) =>
            let e := wrapError "failed to destroy repository '%s': %w" [name] e0 in
            if IsNotFound e then None else Some e
        | callFirst resp None | interruptFirst resp =>
            if Wait opts then
              match resp with
              | Some r =>
                  fst (waitOutcome w name (GitDeployResponse_Action r) (Timeout opts))
              | None => None
              end
            else None
        end
    end.
Proof.
  unfold ExecuteDestroyPipeline, destroyPipeline, waitUntilDestroyed.
  repeat (case_match; simplify_eq; cbn [fst snd negb] in * ); done.
Qed.

(** X13: [ExecuteDestroyPipeline] returns an error in three cases and no
    other: the name cannot be resolved; the remote [Destroy] fails with an
    error that is not a not-found one, which comes back wrapped with the
    repository name; or the caller waits, the destroy step handed over a
    response without error, and the wait fails.  An interrupt during the
    destroy call is not among them. *)
Theorem ExecuteDestroyPipeline_fails_iff (IsNotFound : error -> bool) (w : world)
    (opts : DestroyOptions) (e : error) :
  fst (ExecuteDestroyPipeline IsNotFound w opts) = Some e
  <-> resolveName w opts = inl e
      \/ (exists name resp e0,
            resolveName w opts = inr name
            /\ Destroy w name (DestroyVolumes opts) = callFirst resp (Some e0)
            /\ e = wrapError "failed to destroy repository '%s': %w" [name] e0
            /\ IsNotFound e = false)
      \/ (exists name r,
            resolveName w opts = inr name
            /\ Wait opts = true
            /\ (Destroy w name (DestroyVolumes opts) = callFirst (Some r) None
                \/ Destroy w name (DestroyVolumes opts) = interruptFirst (Some r))
            /\ fst (waitOutcome w name (GitDeployResponse_Action r) (Timeout opts))
               = Some e).
Proof.
  rewrite ExecuteDestroyPipeline_returns.
  destruct (resolveName w opts) as [e1 | name] eqn:En.
  { split; [intros [= ->]; by left |].
    intros [? | [(? & ? & ? & ? & _) | (? & ? & ? & _)]]; by simplify_eq. }
  split.
  - intros H. right.
    destruct (Destroy w name (DestroyVolumes opts)) as [resp | resp [e0 |]] eqn:Ed.
    + right. destruct (Wait opts) eqn:Ew; [| done].
      destruct resp as [r |]; [| done]. exists name, r. auto.
    + left. cbv zeta in H. destruct (IsNotFound _) eqn:Ef; [done |].
      simplify_eq. by exists name, resp, e0.
    + right. destruct (Wait opts) eqn:Ew; [| done].
      destruct resp as [r |]; [| done]. exists name, r. auto.
  - intros [? | [(n & resp & e0 & Hn & Hd & -> & Hf)
                 | (n & r & Hn & Hw & Hd & Ho)]]; [done | |]; simplify_eq.
    + rewrite Hd. cbv zeta. by rewrite Hf.
    + rewrite Hw. by destruct Hd as [-> | ->].
Qed.

Lemma enteredWait_spinner name (l1 l2 : list logCall) :
  enteredWait name (l1 ++ waitingSpinner name :: l2) = true.
Proof.
  unfold enteredWait, waitingSpinner. rewrite existsb_app. cbn [existsb].
  by rewrite String.eqb_refl, orb_true_r.
Qed.

(** X14: the wait phase is entered exactly when the caller asked to wait
    and the destroy step handed over a response without error, be it after
    the remote call or after an interrupt; in every other case nothing of
    the wait phase is run. *)
Theorem wait_entered_iff (IsNotFound : error -> bool) (w : world)
    (opts : DestroyOptions) (name : string) :
  resolveName w opts = inr name ->
  enteredWait name (snd (ExecuteDestroyPipeline IsNotFound w opts))
  = Wait opts
    && match Destroy w name (DestroyVolumes opts) with
       | callFirst (Some _) None | interruptFirst (Some _) => true
       | _ => false
       end.
Proof.
  intros Hname. unfold ExecuteDestroyPipeline, destroyPipeline, waitUntilDestroyed.
  rewrite Hname.
  destruct (Destroy w name (DestroyVolumes opts)) as [[r |] | [r |] [e0 |]];
    destruct (Wait opts); cbn [negb andb fst snd];
    try destruct (IsNotFound _);
    try destruct (waitOutcome w name (GitDeployResponse_Action r) (Timeout opts))
      as [[e |] wout];
    cbn [negb fst snd]; try reflexivity.
  all: rewrite <- ?app_assoc; apply enteredWait_spinner.
Qed.

Lemma wait_entered_iff_witness :
  enteredWait "app"
    (snd (ExecuteDestroyPipeline examples.notFoundText examples.goneWorld
            (examples.destroyOpts true)))
  = true && false.
Proof.
  apply (wait_entered_iff examples.notFoundText examples.goneWorld
           (examples.destroyOpts true) "app").
  reflexivity.
Defined.

(** ** What the caller of [waitUntilDestroyed] gets back *)

Lemma exec_snoc sched a s :
  exec (sched ++ [a]) s = default (exec sched s) (step a (exec sched s)).
Proof. revert s. induction sched as [| b sched IH]; intros s; [done | apply IH]. Qed.

Lemma explained_mono sched a s : explained sched s -> explained (sched ++ [a]) s.
Proof.
  intros (Hsp & Hwa & Heb & Hm). unfold explained.
  split; [intros H; apply elem_of_app; left; auto |].
  split; [intros r H; apply elem_of_app; left; auto |].
  split.
  - intros r H. destruct (Heb r H). split; [apply elem_of_app; by left | done].
  - intros r H. destruct (Hm r H) as [Hc [[-> Hi] | Hw]].
    + split; [done |]. left. split; [done |]. apply elem_of_app. by left.
    + split; [done |]. right. apply elem_of_app. by left.
Qed.

Lemma explained_weaken sched a s s' :
  explained sched s ->
  (stop_pending s' = true -> stop_pending s = true) ->
  (forall r, waiter s' = waiterReturned r -> waiter s = waiterReturned r) ->
  (forall r, exit_buffer s' = Some r ->
             exit_buffer s = Some r /\ (waiter s = waiterExited -> waiter s' = waiterExited)) ->
  (forall r, main s' = mainReturned r ->
             main s = mainReturned r /\ (cancelled s = true -> cancelled s' = true)) ->
  explained (sched ++ [a]) s'.
Proof.
  intros Hexp Hsp Hwa Heb Hm.
  destruct (explained_mono sched a s Hexp) as (Hsp0 & Hwa0 & Heb0 & Hm0).
  unfold explained. split; [auto |]. split; [auto |]. split.
  - intros r H. destruct (Heb r H) as [H1 H2]. destruct (Heb0 r H1). auto.
  - intros r H. destruct (Hm r H) as [H1 H2]. destruct (Hm0 r H1). auto.
Qed.

Lemma explained_step sched a s :
  invariant s -> explained sched s ->
  explained (sched ++ [a]) (default s (step a s)).
Proof.
  intros Hinv Hexp.
  destruct (step a s) as [s' |] eqn:Hstep; [| by apply explained_mono].
  cbn [default].
  assert (Hnew : a ∈ sched ++ [a]) by (apply elem_of_app; right; apply list_elem_of_here).
  destruct (explained_mono sched a s Hexp) as (Hsp & Hwa & Heb & Hm).
  destruct Hinv as (_ & Hsc & Hec & _ & _ & Hwn).
  destruct s as [wg0 m st wa cl sp sc eb ec ca o].
  cbn in Hsc, Hec, Hwn, Hsp, Hwa, Heb, Hm. subst sc ec.
  destruct a; cbn in Hstep.
  - (* actMain *)
    destruct m; simplify_eq;
      try (apply (explained_weaken _ _ _ _ Hexp); cbn; intros; by simplify_eq).
    unfold explained; cbn. split; [done |]. split; [done |]. split; [| done].
    intros r H. destruct (Heb r H) as [_ ->].
    destruct Hwn as [? | ?]; [done | cbn in *; lia].
  - (* actSelectStop *)
    destruct m; simplify_eq. rewrite orb_false_r in Hstep.
    destruct sp; simplify_eq.
    unfold explained; cbn. split; [done |]. split; [done |]. split; [done |].
    intros r [= <-]. auto.
  - (* actSelectExit *)
    destruct m; simplify_eq. destruct eb as [r1 |]; simplify_eq.
    unfold explained; cbn. split; [done |]. split; [done |]. split; [done |].
    intros r [= <-]. destruct (Heb r1 eq_refl). auto.
  - (* actInterrupt *)
    simplify_eq. unfold explained; cbn. auto.
  - (* actStreamReturn *)
    destruct st; simplify_eq.
    apply (explained_weaken _ _ _ _ Hexp); cbn; intros; by simplify_eq.
  - (* actStreamDone *)
    destruct st; simplify_eq.
    apply (explained_weaken _ _ _ _ Hexp); cbn; intros; by simplify_eq.
  - (* actWaiterReturn *)
    destruct wa; simplify_eq.
    unfold explained; cbn. split; [done |]. split; [by intros r [= <-] |].
    split; [| done]. intros r H. by destruct (Heb r H).
  - (* actWaiterSend *)
    destruct wa; simplify_eq. destruct eb; simplify_eq.
    unfold explained; cbn. split; [done |]. split; [done |]. split; [| done].
    intros r0 [= <-]. split; [by apply Hwa | done].
  - (* actCloser *)
    destruct cl; simplify_eq; try (destruct (wg0 =? 0); simplify_eq);
      apply (explained_weaken _ _ _ _ Hexp); cbn; intros; by simplify_eq.
Qed.

Lemma explained_exec sched :
  invariant (exec sched init) /\ explained sched (exec sched init).
Proof.
  split; [apply pipelineProofs.invariant_exec, pipelineProofs.invariant_init |].
  induction sched as [| a sched IH] using rev_ind.
  - unfold explained. cbn. repeat split; intros; done.
  - rewrite exec_snoc. apply explained_step; [| exact IH].
    apply pipelineProofs.invariant_exec, pipelineProofs.invariant_init.
Qed.

(** X15: whenever [waitUntilDestroyed] returns, the context of the log
    stream has been cancelled, and what it returns is either the interrupt
    error, after an interrupt was delivered, or the very result with which
    the wait for the action returned. *)
Theorem waitUntilDestroyed_returns (sched : list action) (r : option error) :
  main (exec sched init) = mainReturned r ->
  cancelled (exec sched init) = true
  /\ (r = Some ErrIntSig /\ actInterrupt ∈ sched \/ actWaiterReturn r ∈ sched).
Proof.
  intros H. destruct (explained_exec sched) as (_ & _ & _ & _ & Hm). by apply Hm.
Qed.

(** X16: the goroutine that waits for the action never blocks on handing
    over its result: whenever the wait has returned, the send on the
    buffered channel can run, also after the caller has gone on an
    interrupt, and it leaves the result in the buffer. *)
Theorem waiter_send_never_blocks (sched : list action) (r : option error) :
  waiter (exec sched init) = waiterReturned r ->
  exists s', step actWaiterSend (exec sched init) = Some s'
             /\ exit_buffer s' = Some r /\ waiter s' = waiterExited.
Proof.
  intros H.
  destruct (explained_exec sched) as ((_ & _ & Hec & _) & _ & _ & Heb & _).
  unfold step. rewrite H.
  destruct (exit_buffer (exec sched init)) as [r' |] eqn:E.
  - destruct (Heb r' eq_refl) as [_ Hw]. congruence.
  - rewrite Hec. cbn. by eexists.
Qed.

Lemma waitUntilDestroyed_returns_witness :
  cancelled (exec (examples.bothFinish ++ [actSelectExit]) init) = true
  /\ (None = Some ErrIntSig
      /\ actInterrupt ∈ examples.bothFinish ++ [actSelectExit]
      \/ actWaiterReturn None ∈ examples.bothFinish ++ [actSelectExit]).
Proof.
  apply (waitUntilDestroyed_returns (examples.bothFinish ++ [actSelectExit]) None).
  reflexivity.
Defined.

Lemma waiter_send_never_blocks_witness :
  exists s', step actWaiterSend (exec interruptedThenFailed init) = Some s'
             /\ exit_buffer s' = Some (Some (errorString "timeout"))
             /\ waiter s' = waiterExited.
Proof.
  apply (waiter_send_never_blocks interruptedThenFailed
           (Some (errorString "timeout"))).
  reflexivity.
Defined.

End destroyProofs.
